(** * gemini-sonic: the search flow, its parser and its session store

    A shallow embedding of [src/services/geminiService.ts] (the parsing
    done by [searchAndSummarize]) and of the handlers of [src/App.tsx]
    (the version of the component with the history, the workshop and the
    lucky button).

    - JavaScript strings are sequences of UTF-16 code units: [list N].
    - React state, the two refs and the audio nodes of the host are the
      fields of one record, [World]; a [setX] call is a field update.
    - A handler is a computation in a state-and-exception monad. It is run
      from the call to the point where control returns to the event loop
      for good: every [await] of a remote call is answered by the
      environment [Env] of that run, and no other handler runs in between.
    - A handler reads [query], [status], [results] and [isLuckyLoading]
      from the render in which it was created; the model takes that to be
      the world in which it is called.
    - Every write to the status, every write to the log, every remote
      call and every event of an audio node is also recorded, in order,
      in the ghost field [trace]. *)

From Stdlib Require Import List NArith ZArith Arith Bool Lia Ascii.
From Stdlib Require String Decimal DecimalString.
Import ListNotations.
Import String.StringSyntax.
Delimit Scope string_scope with string.

Set Implicit Arguments.

(* ------------------------------------------------------------------ *)
(** ** JavaScript strings *)
(* ------------------------------------------------------------------ *)

Module JsString.

Definition jsstring := list N.

(** A literal of the source, for ASCII text. *)
Definition js (s : String.string) : jsstring :=
  map N_of_ascii (String.list_ascii_of_string s).
Arguments js s%_string.

(** The double quote, U+0022. *)
Definition dq : N := 34%N.

Definition quoted (s : jsstring) : jsstring := [dq] ++ s ++ [dq].

Definition jsstring_eqb (a b : jsstring) : bool :=
  if list_eq_dec N.eq_dec a b then true else false.

Local Open Scope N_scope.

(** ECMAScript LineTerminator: LF, CR, LS, PS. *)
Definition is_line_terminator (c : N) : bool :=
  (c =? 10) || (c =? 13) || (c =? 8232) || (c =? 8233).

(** ECMAScript WhiteSpace or LineTerminator: the class [\s] of a regular
    expression, and what [String.prototype.trim] removes. *)
Definition is_space (c : N) : bool :=
  (c =? 9) || (c =? 11) || (c =? 12) || (c =? 32) || (c =? 160)
  || (c =? 5760) || ((8192 <=? c) && (c <=? 8202)) || (c =? 8239)
  || (c =? 8287) || (c =? 12288) || (c =? 65279)
  || is_line_terminator c.

(** The class [.] of a regular expression without the [s] flag. *)
Definition is_dot (c : N) : bool := negb (is_line_terminator c).

(** Canonicalize of a regular expression with the [i] flag and without the
    [u] flag, on the ASCII range; a code unit above the ASCII range never
    canonicalizes to an ASCII one, so against an ASCII pattern the identity
    is exact there. *)
Definition canon (c : N) : N :=
  if (97 <=? c) && (c <=? 122) then c - 32 else c.

Definition ci_eq (p c : N) : bool := canon p =? canon c.

Local Close Scope N_scope.

Fixpoint dropWhile (p : N -> bool) (s : jsstring) : jsstring :=
  match s with
  | c :: s' => if p c then dropWhile p s' else s
  | [] => []
  end.

Fixpoint takeWhile (p : N -> bool) (s : jsstring) : jsstring :=
  match s with
  | c :: s' => if p c then c :: takeWhile p s' else []
  | [] => []
  end.

(** [String.prototype.trim]. *)
Definition trim (s : jsstring) : jsstring :=
  rev (dropWhile is_space (rev (dropWhile is_space s))).

(** Truthiness of a string: the empty string is falsy. *)
Definition truthy (s : jsstring) : bool :=
  match s with [] => false | _ => true end.

(** [Number.prototype.toString] of a non-negative integer. *)
Definition nat_to_js (n : nat) : jsstring :=
  js (DecimalString.NilEmpty.string_of_uint (Nat.to_uint n)).

Definition N_to_js (n : N) : jsstring :=
  js (DecimalString.NilEmpty.string_of_uint (N.to_uint n)).

#[global] Arguments js : simpl never.
#[global] Arguments quoted : simpl never.
#[global] Arguments trim : simpl never.
#[global] Arguments nat_to_js : simpl never.
#[global] Arguments N_to_js : simpl never.

End JsString.
Import JsString.

(* ------------------------------------------------------------------ *)
(** ** The two regular expressions of [searchAndSummarize] *)
(* ------------------------------------------------------------------ *)

Module Regex.

(** A literal, compared under the [i] flag; the rest of the subject. *)
Fixpoint lit_ci (p s : jsstring) : option jsstring :=
  match p, s with
  | [], _ => Some s
  | a :: p', c :: s' => if ci_eq a c then lit_ci p' s' else None
  | _ :: _, [] => None
  end.

(** A greedy, backtracking [cls*]: the longest run first, then shorter
    ones, until the continuation [k] accepts; [k] is given what the star
    consumed and the rest of the subject. *)
Fixpoint star (A : Type) (cls : N -> bool)
    (k : jsstring -> jsstring -> option A)
    (acc s : jsstring) : option A :=
  match s with
  | c :: s' =>
      if cls c then
        match star cls k (acc ++ [c]) s' with
        | Some r => Some r
        | None => k acc s
        end
      else k acc s
  | [] => k acc []
  end.

(** The leftmost match of [m]: what precedes it, and what [m] returned. *)
Fixpoint search (A : Type) (m : jsstring -> option A) (s : jsstring)
    : option (jsstring * A) :=
  match m s with
  | Some a => Some ([], a)
  | None =>
      match s with
      | [] => None
      | c :: s' =>
          match search m s' with
          | Some (pre, a) => Some (c :: pre, a)
          | None => None
          end
      end
  end.

Definition MARK : jsstring := js "QUERY_USED:".

(** The expression of line 44 tried at the head of [s]: the marker under
    the [i] flag, a greedy run of [\s], then capture group 1, a greedy run
    of [.]; it returns the group and the rest of the subject. *)
Definition re_query_at (s : jsstring) : option (jsstring * jsstring) :=
  match lit_ci MARK s with
  | Some r =>
      star is_space
        (fun _ r1 => star is_dot (fun g r2 => Some (g, r2)) [] r1) [] r
  | None => None
  end.

(** The expression of line 47 tried at the head of [s]: the marker under
    the [i] flag, a greedy run of [\s], a greedy run of [.], then [$],
    which without the [m] flag holds at the end of the input only; it
    returns the rest of the subject after the match. *)
Definition re_strip_at (s : jsstring) : option jsstring :=
  match lit_ci MARK s with
  | Some r =>
      star is_space
        (fun _ r1 =>
           star is_dot
             (fun _ r2 => match r2 with [] => Some r2 | _ :: _ => None end)
             [] r1) [] r
  | None => None
  end.

(** [s.match(re)] for a regular expression without the [g] flag, reduced
    to its capture group 1; [None] is [null]. *)
Definition match_group1 (s : jsstring) : option jsstring :=
  match search re_query_at s with
  | Some (_, (g, _)) => Some g
  | None => None
  end.

(** [s.replace(re, '')] for a regular expression without the [g] flag:
    the first match is cut out. *)
Definition replace_empty (s : jsstring) : jsstring :=
  match search re_strip_at s with
  | Some (pre, rest) => pre ++ rest
  | None => s
  end.

(** Whether an occurrence of the marker, in any letter case, starts at
    the head of [s]. *)
Definition marker_at (s : jsstring) : bool :=
  match lit_ci MARK s with Some _ => true | None => false end.

(** The index at which the leftmost occurrence of the marker starts. *)
Fixpoint first_marker (s : jsstring) : option nat :=
  if marker_at s then Some O
  else match s with
       | [] => None
       | _ :: s' => option_map S (first_marker s')
       end.

End Regex.
Import Regex.

(* ------------------------------------------------------------------ *)
(** ** types.ts and the parsing of [searchAndSummarize] *)
(* ------------------------------------------------------------------ *)

Record SearchResult := { title : jsstring; uri : jsstring }.

Record SearchResponse := {
  summary : jsstring;
  sources : list SearchResult;
  actualQuery : jsstring
}.

Inductive AppStatus :=
  | IDLE | TWEAKING | ANALYZING | SEARCHING | SYNTHESIZING
  | GENERATING_AUDIO | PLAYING | ERROR.

(** A grounding chunk as the backend sends it: [chunk.web] may be absent,
    and so may [web.title] and [web.uri]. *)
Record WebChunk := { web_title : option jsstring; web_uri : option jsstring }.
Record Chunk := { web : option WebChunk }.

(** What [generateContent] resolved to, as far as [searchAndSummarize]
    reads it: [response.text] and
    [response.candidates?.[0]?.groundingMetadata?.groundingChunks]. *)
Record SearchReply := {
  reply_text : option jsstring;
  groundingChunks : option (list Chunk)
}.

Module GeminiService.

(** [a || b] on strings. *)
Definition or_else (a : option jsstring) (b : jsstring) : jsstring :=
  match a with
  | Some s => if truthy s then s else b
  | None => b
  end.

(** Lines 39-48: [summary] and [actualQuery]. *)
Definition parse_text (query fullText : jsstring) : jsstring * jsstring :=
  match match_group1 fullText with
  | Some g => (trim (replace_empty fullText), trim g)
  | None => (fullText, query)
  end.

(** Lines 50-61: the [forEach] that pushes the chunks with a truthy
    [web.uri]. *)
Fixpoint collect (chunks : list Chunk) : list SearchResult :=
  match chunks with
  | [] => []
  | c :: rest =>
      match web c with
      | Some w =>
          match web_uri w with
          | Some u =>
              if truthy u
              then {| title := or_else (web_title w) (js "Source"); uri := u |}
                   :: collect rest
              else collect rest
          | None => collect rest
          end
      | None => collect rest
      end
  end.

(** [Array.prototype.findIndex]: the first index whose element satisfies
    [p], or -1. *)
Fixpoint findIndex (A : Type) (p : A -> bool) (a : list A) : Z :=
  match a with
  | [] => (-1)%Z
  | x :: a' =>
      if p x then 0%Z
      else match findIndex p a' with
           | Zneg _ => (-1)%Z
           | i => Z.succ i
           end
  end.

(** [Array.prototype.filter] with the callback given the element and its
    index. *)
Fixpoint filter_from (A : Type) (f : A -> Z -> bool) (i : Z) (l : list A)
    : list A :=
  match l with
  | [] => []
  | x :: l' =>
      if f x i then x :: filter_from f (Z.succ i) l'
      else filter_from f (Z.succ i) l'
  end.

Definition filteri (A : Type) (f : A -> Z -> bool) (l : list A) : list A :=
  filter_from f 0%Z l.

(** Line 63. *)
Definition uniqueSources (a : list SearchResult) : list SearchResult :=
  filteri
    (fun v i => Z.eqb (findIndex (fun t => jsstring_eqb (uri t) (uri v)) a) i)
    a.

Definition sources_of (gc : option (list Chunk)) : list SearchResult :=
  match gc with
  | Some chunks => uniqueSources (collect chunks)
  | None => uniqueSources []
  end.

(** The value [searchAndSummarize] returns once the backend has replied. *)
Definition searchAndSummarize_result (query : jsstring) (r : SearchReply)
    : SearchResponse :=
  let fullText := or_else (reply_text r) [] in
  let '(summary, actualQuery) := parse_text query fullText in
  {| summary := summary;
     sources := sources_of (groundingChunks r);
     actualQuery := actualQuery |}.

#[global] Arguments searchAndSummarize_result : simpl never.
#[global] Arguments or_else : simpl never.

End GeminiService.
Import GeminiService.

(* ------------------------------------------------------------------ *)
(** ** The world of the component *)
(* ------------------------------------------------------------------ *)

(** The [HistoryItem] interface of App.tsx. *)
Record HistoryItem := {
  item_id : jsstring;
  item_query : jsstring;
  item_results : SearchResponse
}.

(** A thrown value, as far as the handlers read it: [err.message]. *)
Record Err := { message : option jsstring }.

Definition AudioBuffer := list Z.

(** An [AudioBufferSourceNode] of the host. Every node the component
    creates has the [onended] handler of the flow attached before it is
    started, and the component never detaches it.

    Host behaviour (Web Audio, AudioScheduledSourceNode): the [ended]
    event is dispatched to a node once it has stopped playing, whether the
    end of the buffer was reached or [stop()] was called. A node that has
    stopped and whose [ended] event is still to be dispatched is
    [NodeEndedPending]. *)
Inductive NodeState :=
  | NodeIdle | NodePlaying | NodeEndedPending | NodeFinished.

Record Node := { node_buffer : AudioBuffer; node_state : NodeState }.

Inductive RemoteCall :=
  | CallSearch (q : jsstring)
  | CallSpeech (text : jsstring)
  | CallTweak (q : jsstring)
  | CallRandom
  | CallRefine (original currentSummary : jsstring).

(** The ghost record of what a handler did, in order. *)
Inductive Event :=
  | EvStatus (s : AppStatus)         (* setStatus(s) *)
  | EvLog (msg : jsstring)           (* addLog(msg) *)
  | EvSetLogs (l : list jsstring)    (* setLogs(l) *)
  | EvCall (c : RemoteCall)          (* a request sent to the backend *)
  | EvNodeStart (n : nat)            (* source.start() *)
  | EvNodeStop (n : nat)             (* source.stop() *)
  | EvNodeEnd (n : nat)              (* the buffer was played to its end *)
  | EvEnded (n : nat).               (* the onended callback ran *)

Record World := {
  (* useState *)
  query : jsstring;
  status : AppStatus;
  results : option SearchResponse;
  error : option jsstring;
  logs : list jsstring;
  playbackFinished : bool;
  isLuckyLoading : bool;
  history : list HistoryItem;
  (* useRef *)
  audioContextRef : bool;            (* whether the context exists *)
  currentSourceRef : option nat;     (* index into [nodes] *)
  (* host *)
  nodes : list Node;
  (* ghost *)
  trace : list Event
}.

Definition initial : World :=
  {| query := []; status := IDLE; results := None; error := None;
     logs := []; playbackFinished := false; isLuckyLoading := false;
     history := []; audioContextRef := false; currentSourceRef := None;
     nodes := []; trace := [] |}.

(** What the environment answers during one run of a handler. [inl] is a
    rejected promise or a thrown exception. [decode] stands for
    [decodeAudioData(decodeBase64(...))] of services/audio, which the
    handlers only call. *)
Record Env := {
  now : N;
  backend_search : jsstring -> Err + SearchReply;
  backend_speech : jsstring -> Err + option jsstring;
  backend_tweak : jsstring -> Err + option jsstring;
  backend_random : Err + option jsstring;
  backend_refine : jsstring -> jsstring -> Err + option jsstring;
  decode : jsstring -> Err + AudioBuffer
}.

Definition status_eqb (a b : AppStatus) : bool :=
  match a, b with
  | IDLE, IDLE | TWEAKING, TWEAKING | ANALYZING, ANALYZING
  | SEARCHING, SEARCHING | SYNTHESIZING, SYNTHESIZING
  | GENERATING_AUDIO, GENERATING_AUDIO | PLAYING, PLAYING
  | ERROR, ERROR => true
  | _, _ => false
  end.

(* ------------------------------------------------------------------ *)
(** ** Handlers as state-and-exception computations *)
(* ------------------------------------------------------------------ *)

Module Handler.

Inductive Result (A : Type) :=
  | Ok (a : A)
  | Throw (e : Err).
Arguments Ok {A} a.
Arguments Throw {A} e.

Definition M (A : Type) := World -> Result A * World.

Definition ret (A : Type) (a : A) : M A := fun w => (Ok a, w).

Definition bind (A B : Type) (m : M A) (k : A -> M B) : M B :=
  fun w =>
    match m w with
    | (Ok a, w') => k a w'
    | (Throw e, w') => (Throw e, w')
    end.

Definition throw (A : Type) (e : Err) : M A := fun w => (Throw e, w).
Arguments throw {A} e.

(** [try { body } catch (err) { handler(err) }]. *)
Definition try_catch (A : Type) (body : M A) (handler : Err -> M A) : M A :=
  fun w =>
    match body w with
    | (Ok a, w') => (Ok a, w')
    | (Throw e, w') => handler e w'
    end.

Definition get : M World := fun w => (Ok w, w).

Definition modify (f : World -> World) : M unit := fun w => (Ok tt, f w).

Definition skip : M unit := ret tt.

(** The world a handler leaves behind. *)
Definition exec (A : Type) (m : M A) (w : World) : World := snd (m w).

End Handler.
Import Handler.

Declare Scope handler_scope.
Delimit Scope handler_scope with handler.
Notation "x <- m ;; k" := (bind m (fun x => k))
  (at level 61, m at next level, right associativity) : handler_scope.
Notation "m ;; k" := (bind m (fun _ => k))
  (at level 61, right associativity) : handler_scope.
Local Open Scope handler_scope.

(** *** Field updates *)

Definition record_event (e : Event) (w : World) : World :=
  {| query := query w; status := status w; results := results w;
     error := error w; logs := logs w;
     playbackFinished := playbackFinished w;
     isLuckyLoading := isLuckyLoading w; history := history w;
     audioContextRef := audioContextRef w;
     currentSourceRef := currentSourceRef w; nodes := nodes w;
     trace := trace w ++ [e] |}.

Definition with_query (q : jsstring) (w : World) : World :=
  {| query := q; status := status w; results := results w;
     error := error w; logs := logs w;
     playbackFinished := playbackFinished w;
     isLuckyLoading := isLuckyLoading w; history := history w;
     audioContextRef := audioContextRef w;
     currentSourceRef := currentSourceRef w; nodes := nodes w;
     trace := trace w |}.

Definition with_status (s : AppStatus) (w : World) : World :=
  {| query := query w; status := s; results := results w;
     error := error w; logs := logs w;
     playbackFinished := playbackFinished w;
     isLuckyLoading := isLuckyLoading w; history := history w;
     audioContextRef := audioContextRef w;
     currentSourceRef := currentSourceRef w; nodes := nodes w;
     trace := trace w |}.

Definition with_results (r : option SearchResponse) (w : World) : World :=
  {| query := query w; status := status w; results := r;
     error := error w; logs := logs w;
     playbackFinished := playbackFinished w;
     isLuckyLoading := isLuckyLoading w; history := history w;
     audioContextRef := audioContextRef w;
     currentSourceRef := currentSourceRef w; nodes := nodes w;
     trace := trace w |}.

Definition with_error (e : option jsstring) (w : World) : World :=
  {| query := query w; status := status w; results := results w;
     error := e; logs := logs w;
     playbackFinished := playbackFinished w;
     isLuckyLoading := isLuckyLoading w; history := history w;
     audioContextRef := audioContextRef w;
     currentSourceRef := currentSourceRef w; nodes := nodes w;
     trace := trace w |}.

Definition with_logs (l : list jsstring) (w : World) : World :=
  {| query := query w; status := status w; results := results w;
     error := error w; logs := l;
     playbackFinished := playbackFinished w;
     isLuckyLoading := isLuckyLoading w; history := history w;
     audioContextRef := audioContextRef w;
     currentSourceRef := currentSourceRef w; nodes := nodes w;
     trace := trace w |}.

Definition with_playbackFinished (b : bool) (w : World) : World :=
  {| query := query w; status := status w; results := results w;
     error := error w; logs := logs w;
     playbackFinished := b;
     isLuckyLoading := isLuckyLoading w; history := history w;
     audioContextRef := audioContextRef w;
     currentSourceRef := currentSourceRef w; nodes := nodes w;
     trace := trace w |}.

Definition with_isLuckyLoading (b : bool) (w : World) : World :=
  {| query := query w; status := status w; results := results w;
     error := error w; logs := logs w;
     playbackFinished := playbackFinished w;
     isLuckyLoading := b; history := history w;
     audioContextRef := audioContextRef w;
     currentSourceRef := currentSourceRef w; nodes := nodes w;
     trace := trace w |}.

Definition with_history (h : list HistoryItem) (w : World) : World :=
  {| query := query w; status := status w; results := results w;
     error := error w; logs := logs w;
     playbackFinished := playbackFinished w;
     isLuckyLoading := isLuckyLoading w; history := h;
     audioContextRef := audioContextRef w;
     currentSourceRef := currentSourceRef w; nodes := nodes w;
     trace := trace w |}.

Definition with_audioContextRef (b : bool) (w : World) : World :=
  {| query := query w; status := status w; results := results w;
     error := error w; logs := logs w;
     playbackFinished := playbackFinished w;
     isLuckyLoading := isLuckyLoading w; history := history w;
     audioContextRef := b;
     currentSourceRef := currentSourceRef w; nodes := nodes w;
     trace := trace w |}.

Definition with_currentSourceRef (c : option nat) (w : World) : World :=
  {| query := query w; status := status w; results := results w;
     error := error w; logs := logs w;
     playbackFinished := playbackFinished w;
     isLuckyLoading := isLuckyLoading w; history := history w;
     audioContextRef := audioContextRef w;
     currentSourceRef := c; nodes := nodes w;
     trace := trace w |}.

Definition with_nodes (ns : list Node) (w : World) : World :=
  {| query := query w; status := status w; results := results w;
     error := error w; logs := logs w;
     playbackFinished := playbackFinished w;
     isLuckyLoading := isLuckyLoading w; history := history w;
     audioContextRef := audioContextRef w;
     currentSourceRef := currentSourceRef w; nodes := ns;
     trace := trace w |}.

(** *** State setters, the log, the host's audio nodes *)

Definition setQuery (q : jsstring) : M unit := modify (with_query q).

Definition setStatus (s : AppStatus) : M unit :=
  modify (fun w => record_event (EvStatus s) (with_status s w)).

Definition setResults (r : option SearchResponse) : M unit :=
  modify (with_results r).

Definition setError (e : option jsstring) : M unit := modify (with_error e).

Definition setLogs (l : list jsstring) : M unit :=
  modify (fun w => record_event (EvSetLogs l) (with_logs l w)).

Definition setPlaybackFinished (b : bool) : M unit :=
  modify (with_playbackFinished b).

Definition setIsLuckyLoading (b : bool) : M unit :=
  modify (with_isLuckyLoading b).

(** [setHistory(prev => f(prev))]. *)
Definition setHistory (f : list HistoryItem -> list HistoryItem) : M unit :=
  modify (fun w => with_history (f (history w)) w).

(** Line 383: [setLogs(prev => [...prev, msg])]. *)
Definition addLog (msg : jsstring) : M unit :=
  modify (fun w => record_event (EvLog msg) (with_logs (logs w ++ [msg]) w)).

Definition setCurrentSource (c : option nat) : M unit :=
  modify (with_currentSourceRef c).

Definition remote (c : RemoteCall) : M unit :=
  modify (record_event (EvCall c)).

Fixpoint update_node (n : nat) (f : Node -> Node) (ns : list Node)
    : list Node :=
  match ns, n with
  | [], _ => []
  | x :: ns', O => f x :: ns'
  | x :: ns', S n' => x :: update_node n' f ns'
  end.

Definition node_state_at (n : nat) (w : World) : option NodeState :=
  option_map node_state (nth_error (nodes w) n).

Definition set_node_state (n : nat) (s : NodeState) (w : World) : World :=
  with_nodes
    (update_node n
       (fun x => {| node_buffer := node_buffer x; node_state := s |})
       (nodes w)) w.

(** Lines 428-430. *)
Definition ensureAudioContext : M unit :=
  modify (fun w =>
    if audioContextRef w then w else with_audioContextRef true w).

(** Lines 439-447: a new node with its buffer; the flow sets [onended] on
    it at once. *)
Definition createBufferSource (buf : AudioBuffer) : M nat :=
  fun w =>
    (Ok (length (nodes w)),
     with_nodes
       (nodes w ++ [{| node_buffer := buf; node_state := NodeIdle |}]) w).

(** [source.start()]. *)
Definition startSource (n : nat) : M unit :=
  modify (fun w => record_event (EvNodeStart n) (set_node_state n NodePlaying w)).

(** [source.stop()]: output halts at once; the host will dispatch [ended]
    to the node. *)
Definition stopSource (n : nat) : M unit :=
  modify (fun w =>
    record_event (EvNodeStop n)
      (match node_state_at n w with
       | Some NodePlaying => set_node_state n NodeEndedPending w
       | _ => w
       end)).

(** *** The calls of GeminiService *)

Definition text_or (text : option jsstring) (fallback : jsstring)
    : jsstring :=
  or_else (option_map trim text) fallback.

Definition searchAndSummarize (env : Env) (q : jsstring)
    : M SearchResponse :=
  remote (CallSearch q) ;;
  match backend_search env q with
  | inl e => throw e
  | inr r => ret (searchAndSummarize_result q r)
  end.

Definition generateSpeech (env : Env) (text : jsstring) : M jsstring :=
  remote (CallSpeech text) ;;
  match backend_speech env text with
  | inl e => throw e
  | inr audioData =>
      match audioData with
      | Some d =>
          if truthy d then ret d
          else throw {| message := Some (js "Audio generation failed.") |}
      | None => throw {| message := Some (js "Audio generation failed.") |}
      end
  end.

Definition tweakQuery (env : Env) (q : jsstring) : M jsstring :=
  remote (CallTweak q) ;;
  match backend_tweak env q with
  | inl e => throw e
  | inr text => ret (text_or text q)
  end.

Definition generateRandomPrompt (env : Env) : M jsstring :=
  remote CallRandom ;;
  match backend_random env with
  | inl e => throw e
  | inr text => ret (text_or text (js "Why is the sky blue?"))
  end.

Definition refineQuery (env : Env) (originalQuery currentSummary : jsstring)
    : M jsstring :=
  remote (CallRefine originalQuery currentSummary) ;;
  match backend_refine env originalQuery currentSummary with
  | inl e => throw e
  | inr text => ret (text_or text (originalQuery ++ js " in detail"))
  end.

Definition decodeAudioData (env : Env) (audioBase64 : jsstring)
    : M AudioBuffer :=
  match decode env audioBase64 with
  | inl e => throw e
  | inr buf => ret buf
  end.

(** A template literal's rendering of [err.message]. *)
Definition message_text (e : Err) : jsstring :=
  match message e with
  | Some m => m
  | None => js "undefined"
  end.

(** *** App.tsx *)

Definition isSearching (w : World) : bool :=
  negb (status_eqb (status w) IDLE)
  && negb (status_eqb (status w) PLAYING)
  && negb (status_eqb (status w) ERROR).

(** Lines 385-391. *)
Definition stopAudio : M unit :=
  w <- get ;;
  match currentSourceRef w with
  | Some n => stopSource n ;; setCurrentSource None
  | None => skip
  end ;;
  if status_eqb (status w) PLAYING then setStatus IDLE else skip.

(** Lines 442-447: the callback the flow attaches to every node. *)
Definition onended : M unit :=
  setStatus IDLE ;;
  setCurrentSource None ;;
  setPlaybackFinished true ;;
  addLog (js "Playback finished.").

(** Line 419: [[newItem, ...prev.slice(0, 19)]]. *)
Definition push_history (newItem : HistoryItem) (prev : list HistoryItem)
    : list HistoryItem :=
  newItem :: firstn 19 prev.

Definition newItem_of (env : Env) (searchQuery : jsstring)
    (searchRes : SearchResponse) : HistoryItem :=
  {| item_id := N_to_js (now env);
     item_query := searchQuery;
     item_results := searchRes |}.

(** Lines 397-450: the body of the [try]. *)
Definition flow_body (env : Env) (searchQuery : jsstring) : M unit :=
  setStatus ANALYZING ;;
  addLog (js "Analyzing request: " ++ quoted searchQuery) ;;
  (* await the 600 ms timer *)
  setStatus SEARCHING ;;
  addLog (js "Consulting Google Search for real-time information...") ;;
  searchRes <- searchAndSummarize env searchQuery ;;
  addLog (js "Found " ++ nat_to_js (length (sources searchRes))
          ++ js " relevant sources.") ;;
  addLog (js "Model used search term: " ++ quoted (actualQuery searchRes)) ;;
  setStatus SYNTHESIZING ;;
  addLog (js "Synthesizing search results into concise summary...") ;;
  setResults (Some searchRes) ;;
  setHistory (push_history (newItem_of env searchQuery searchRes)) ;;
  setStatus GENERATING_AUDIO ;;
  addLog (js "Converting summary to speech using Gemini TTS...") ;;
  audioBase64 <- generateSpeech env (summary searchRes) ;;
  setStatus PLAYING ;;
  addLog (js "Playing audio summary.") ;;
  ensureAudioContext ;;
  audioBuffer <- decodeAudioData env audioBase64 ;;
  source <- createBufferSource audioBuffer ;;
  setCurrentSource (Some source) ;;
  startSource source.

(** Lines 452-457: the [catch]. *)
Definition flow_catch (err : Err) : M unit :=
  setError (Some (or_else (message err) (js "Search failed. Please try again."))) ;;
  setStatus ERROR ;;
  addLog (js "Error: " ++ message_text err).

(** Lines 393-458. *)
Definition performSearchFlow (env : Env) (searchQuery : jsstring) : M unit :=
  setError None ;;
  setPlaybackFinished false ;;
  try_catch (flow_body env searchQuery) flow_catch.

(** Lines 394-405: what a run of the flow has done when its search
    request is out and the reply is awaited. *)
Definition flow_awaiting_search (searchQuery : jsstring) : M unit :=
  setError None ;;
  setPlaybackFinished false ;;
  setStatus ANALYZING ;;
  addLog (js "Analyzing request: " ++ quoted searchQuery) ;;
  (* await the 600 ms timer *)
  setStatus SEARCHING ;;
  addLog (js "Consulting Google Search for real-time information...") ;;
  remote (CallSearch searchQuery).

(** Lines 460-468. *)
Definition handleSearch (env : Env) : M unit :=
  w <- get ;;
  if negb (truthy (trim (query w)))
     || (negb (status_eqb (status w) IDLE)
         && negb (status_eqb (status w) ERROR))
  then skip
  else
    setResults None ;;
    setLogs [] ;;
    stopAudio ;;
    performSearchFlow env (query w).

(** Lines 470-489. *)
Definition handleWorkshop (env : Env) : M unit :=
  w <- get ;;
  if negb (truthy (trim (query w))) || isSearching w || isLuckyLoading w
  then skip
  else
    setResults None ;;
    setLogs [] ;;
    stopAudio ;;
    setStatus TWEAKING ;;
    addLog (js "Gemini Workshop is optimizing your prompt: "
            ++ quoted (query w) ++ js "...") ;;
    try_catch
      (tweaked <- tweakQuery env (query w) ;;
       setQuery tweaked ;;
       addLog (js "Workshop output: " ++ quoted tweaked) ;;
       performSearchFlow env tweaked)
      (fun _ =>
         addLog (js "Workshop failed to optimize the prompt.") ;;
         setError (Some (js "Workshop optimization failed.")) ;;
         setStatus ERROR).

(** Lines 491-512. *)
Definition handleFeelingLucky (env : Env) : M unit :=
  w <- get ;;
  if isLuckyLoading w || isSearching w
  then skip
  else
    setIsLuckyLoading true ;;
    setResults None ;;
    setLogs [] ;;
    stopAudio ;;
    addLog (js "Gemini is brainstorming a unique topic for you...") ;;
    try_catch
      (randomPrompt <- generateRandomPrompt env ;;
       setQuery randomPrompt ;;
       addLog (js "Inspired query: " ++ quoted randomPrompt) ;;
       setIsLuckyLoading false ;;
       performSearchFlow env randomPrompt)
      (fun _ =>
         addLog (js "Failed to generate a random prompt.") ;;
         setIsLuckyLoading false ;;
         setError (Some (js "Inspiration failed. Please try a manual search.")) ;;
         setStatus ERROR).

(** Lines 514-532. *)
Definition handleFindMore (env : Env) : M unit :=
  w <- get ;;
  match results w with
  | None => skip
  | Some res =>
      let original := query w in
      let currentSummary := summary res in
      setStatus ANALYZING ;;
      addLog (js "Generating a deeper research query...") ;;
      try_catch
        (deeperQuery <- refineQuery env original currentSummary ;;
         setQuery deeperQuery ;;
         addLog (js "New exploration path: " ++ quoted deeperQuery) ;;
         performSearchFlow env deeperQuery)
        (fun _ =>
           setError (Some (js "Failed to generate a deeper query.")) ;;
           setStatus ERROR)
  end.

(** Lines 534-540. *)
Definition handleGoBack : M unit :=
  stopAudio ;;
  setResults None ;;
  setStatus IDLE ;;
  setLogs [] ;;
  setPlaybackFinished false.

(** Lines 542-549. *)
Definition handleHistoryClick (item : HistoryItem) : M unit :=
  stopAudio ;;
  setResults (Some (item_results item)) ;;
  setQuery (item_query item) ;;
  setLogs [js "Restored search results for: " ++ quoted (item_query item)] ;;
  setStatus IDLE ;;
  setPlaybackFinished true.

(** Line 757, the Replay button, and line 824, the retry button of the
    error box: [onClick={() => performSearchFlow(query)}]. *)
Definition replay (env : Env) : M unit :=
  w <- get ;;
  performSearchFlow env (query w).

(** *** What the view offers (the conditions of the JSX) *)

Definition is_some (A : Type) (o : option A) : bool :=
  match o with Some _ => true | None => false end.

Definition error_shown (w : World) : bool :=
  match error w with Some e => truthy e | None => false end.

(** Lines 738 and 752-759: the card is rendered with results; it shows
    Stop while playing and Replay otherwise, disabled while searching. *)
Definition replay_enabled (w : World) : bool :=
  is_some (results w)
  && negb (status_eqb (status w) PLAYING)
  && negb (isSearching w).

Definition stop_offered (w : World) : bool :=
  is_some (results w) && status_eqb (status w) PLAYING.

(** Lines 674 and 684: the landing buttons, Workshop among them. *)
Definition workshop_enabled (w : World) : bool :=
  negb (is_some (results w)) && negb (isSearching w)
  && negb (error_shown w) && negb (isLuckyLoading w)
  && status_eqb (status w) IDLE
  && truthy (trim (query w)).

(** Line 800. *)
Definition findMore_offered (w : World) : bool :=
  playbackFinished w && is_some (results w) && status_eqb (status w) IDLE.

(** *** What a gesture of the user calls *)

(** [handleSearch] is the [onSubmit] of the form around the query field
    (line 638), which is rendered in every state, and the [onClick] of
    the Gemini Search button (line 676): a gesture on Search is a call of
    [handleSearch]. *)

(** Lines 674-684: the only call site of [handleWorkshop] is the
    [onClick] of the Workshop button. Where the button is not rendered,
    or is disabled, there is no call. *)
Definition click_workshop (env : Env) : M unit :=
  w <- get ;;
  if workshop_enabled w then handleWorkshop env else skip.

(** Lines 800-804: the only call site of [handleFindMore] is the
    [onClick] of the button of the exploration block. *)
Definition click_findMore (env : Env) : M unit :=
  w <- get ;;
  if findMore_offered w then handleFindMore env else skip.

(** *** Host events *)

(** The node played its buffer to the end. *)
Definition host_buffer_end (n : nat) : M unit :=
  w <- get ;;
  match node_state_at n w with
  | Some NodePlaying =>
      modify (fun w => record_event (EvNodeEnd n)
                         (set_node_state n NodeEndedPending w))
  | _ => skip
  end.

(** The host dispatches the pending [ended] event of node [n]: the
    callback of lines 442-447 runs. *)
Definition host_dispatch_ended (n : nat) : M unit :=
  w <- get ;;
  match node_state_at n w with
  | Some NodeEndedPending =>
      modify (fun w => record_event (EvEnded n)
                         (set_node_state n NodeFinished w)) ;;
      onended
  | _ => skip
  end.

(** *** Sessions *)

Inductive Action :=
  | TypeQuery (q : jsstring)
  | ClickSearch (env : Env)
  | ClickWorkshop (env : Env)
  | ClickFeelingLucky (env : Env)
  | ClickFindMore (env : Env)
  | ClickReplay (env : Env)
  | ClickStop
  | ClickGoBack
  | ClickHistory (i : nat)
  | HostBufferEnd (n : nat)
  | HostEnded (n : nat).

Definition act (a : Action) : M unit :=
  match a with
  | TypeQuery q => setQuery q
  | ClickSearch env => handleSearch env
  | ClickWorkshop env => handleWorkshop env
  | ClickFeelingLucky env => handleFeelingLucky env
  | ClickFindMore env => handleFindMore env
  | ClickReplay env => replay env
  | ClickStop => stopAudio
  | ClickGoBack => handleGoBack
  | ClickHistory i =>
      w <- get ;;
      match nth_error (history w) i with
      | Some item => handleHistoryClick item
      | None => skip
      end
  | HostBufferEnd n => host_buffer_end n
  | HostEnded n => host_dispatch_ended n
  end.

Definition run (acts : list Action) (w : World) : World :=
  fold_left (fun w a => exec (act a) w) acts w.

(** The events a handler added to the trace. *)
Definition emitted (w w' : World) : list Event :=
  skipn (length (trace w)) (trace w').

Definition is_call (e : Event) : bool :=
  match e with EvCall _ => true | _ => false end.

Definition statuses (es : list Event) : list AppStatus :=
  flat_map (fun e => match e with EvStatus s => [s] | _ => [] end) es.

Definition calls (es : list Event) : list RemoteCall :=
  flat_map (fun e => match e with EvCall c => [c] | _ => [] end) es.

Definition log_writes (es : list Event) : list jsstring :=
  flat_map (fun e => match e with EvLog m => [m] | _ => [] end) es.

Definition resets_log (e : Event) : bool :=
  match e with EvSetLogs _ => true | _ => false end.

(* ------------------------------------------------------------------ *)
(** ** Definitions used to state the properties *)
(* ------------------------------------------------------------------ *)

(** The specification's reading of the citation list: walk the entries in
    order and keep an entry when its URI has not been met before. *)
Fixpoint keep_first (seen : list jsstring) (l : list SearchResult)
    : list SearchResult :=
  match l with
  | [] => []
  | x :: l' =>
      if existsb (jsstring_eqb (uri x)) seen then keep_first seen l'
      else x :: keep_first (uri x :: seen) l'
  end.

(** Consecutive runs of the core flow, each with its own query and
    replies. *)
Definition run_flows (runs : list (Env * jsstring)) (w : World) : World :=
  fold_left (fun w r => exec (performSearchFlow (fst r) (snd r)) w) runs w.

(** The history item a run builds, if its search succeeds. *)
Definition flow_item (r : Env * jsstring) : option HistoryItem :=
  match backend_search (fst r) (snd r) with
  | inr reply =>
      Some (newItem_of (fst r) (snd r)
              (searchAndSummarize_result (snd r) reply))
  | inl _ => None
  end.

(** Events that are neither a remote call nor the start or the end of a
    playback. *)
Definition quiet (e : Event) : bool :=
  match e with
  | EvCall _ | EvNodeStart _ | EvNodeEnd _ | EvEnded _ => false
  | _ => true
  end.

(** The bound of the session store, and the handlers that keep it. *)
Definition bounded (w : World) : Prop := length (history w) <= 20.

Definition preserves (A : Type) (m : M A) : Prop :=
  forall w, bounded w -> bounded (snd (m w)).

Module Samples.

Definition chunk_of (u : String.string) : Chunk :=
  {| web := Some {| web_title := None; web_uri := Some (js u) |} |}.
Arguments chunk_of u%_string.

Definition sample_reply : SearchReply :=
  {| reply_text :=
       Some (js "Paris is old. " ++ [10%N] ++ js "QUERY_USED: Paris history");
     groundingChunks := Some [chunk_of "a"; chunk_of "b"; chunk_of "a"] |}.

(** Every call succeeds; the clock reads [t]. *)
Definition env_at (t : N) : Env :=
  {| now := t;
     backend_search := fun _ => inr sample_reply;
     backend_speech := fun _ => inr (Some (js "UklGRg=="));
     backend_tweak := fun _ => inr (Some (js " history of Paris "));
     backend_random := inr None;
     backend_refine := fun _ _ => inr None;
     decode := fun _ => inr [0%Z; 1%Z] |}.

Definition ok_env : Env := env_at 1000.

(** The search succeeds and the speech request is rejected. *)
Definition mute_env : Env :=
  {| now := 2000%N;
     backend_search := fun _ => inr sample_reply;
     backend_speech :=
       fun _ => inl {| message := Some (js "quota exceeded") |};
     backend_tweak := fun _ => inr None;
     backend_random := inr None;
     backend_refine := fun _ _ => inr None;
     decode := fun _ => inr [] |}.

(** A search was typed and run, and its audio is playing. *)
Definition playing_world : World :=
  run [TypeQuery (js "paris"); ClickSearch ok_env] initial.

(** The audio was then played to its end. *)
Definition idle_world : World :=
  run [HostBufferEnd 0; HostEnded 0] playing_world.

(** Replay was then clicked, and the flow it started awaits the reply
    to its search request: the result of the previous flow is still the
    active one. *)
Definition searching_world : World :=
  exec (flow_awaiting_search (query idle_world)) idle_world.


Definition sample_item : HistoryItem :=
  newItem_of ok_env (js "rome")
    {| summary := js "Rome is older."; sources := [];
       actualQuery := js "history of Rome" |}.

Definition twenty_one_runs : list (Env * jsstring) :=
  map (fun i => (env_at (N.of_nat i), js "paris")) (seq 1 21).

Definition twenty_one_items : list HistoryItem :=
  map (fun i =>
         newItem_of (env_at (N.of_nat i)) (js "paris")
           (searchAndSummarize_result (js "paris") sample_reply))
      (seq 1 21).

End Samples.
Import Samples.

(* ------------------------------------------------------------------ *)
(** ** Definitions used to state further properties *)
(* ------------------------------------------------------------------ *)

(** The error [generateSpeech] throws for a text, if it throws: the
    rejection of the backend, or the failure of line 970 when no audio
    data came back. *)
Definition speech_error (env : Env) (text : jsstring) : option Err :=
  match backend_speech env text with
  | inl e => Some e
  | inr (Some d) =>
      if truthy d then None
      else Some {| message := Some (js "Audio generation failed.") |}
  | inr None => Some {| message := Some (js "Audio generation failed.") |}
  end.

(** The state is one in which no flow is in progress. *)
Definition at_rest (w : World) : Prop :=
  isSearching w = false /\ isLuckyLoading w = false.

(** Actions that start no flow. *)
Definition starts_no_flow (a : Action) : bool :=
  match a with
  | TypeQuery _ | ClickStop | ClickGoBack | ClickHistory _
  | HostBufferEnd _ | HostEnded _ => true
  | _ => false
  end.

(** The four entry points of the component that end in the core flow. *)
Inductive EntryPoint := Search | Workshop | FeelingLucky | FindMore.

Definition entry (p : EntryPoint) (env : Env) : M unit :=
  match p with
  | Search => handleSearch env
  | Workshop => handleWorkshop env
  | FeelingLucky => handleFeelingLucky env
  | FindMore => handleFindMore env
  end.

(** No search request among the events. *)
Definition no_search (es : list Event) : Prop :=
  forall q, ~ In (CallSearch q) (calls es).

(** The three ways a run of an entry point goes: rejected by its guard,
    stopped in Error by the failure of its own remote call, or handed
    over to the core flow with a non-empty query that is also the one
    in the query field. *)
Definition entry_outcome (env : Env) (w w' : World) : Prop :=
  w' = w
  \/ (exists es,
        trace w' = trace w ++ es /\ no_search es
        /\ status w' = ERROR /\ error w' <> None
        /\ history w' = history w
        /\ isLuckyLoading w' = isLuckyLoading w
        /\ audioContextRef w' = audioContextRef w)
  \/ (exists w1 es1,
        w' = exec (performSearchFlow env (query w1)) w1
        /\ query w1 <> []
        /\ trace w1 = trace w ++ es1 /\ no_search es1
        /\ history w1 = history w
        /\ isLuckyLoading w1 = isLuckyLoading w
        /\ audioContextRef w1 = audioContextRef w).

(* ================================================================== *)
(** * Properties *)
(* ================================================================== *)

(* ------------------------------------------------------------------ *)
(** ** Citations *)
(* ------------------------------------------------------------------ *)

Module Citations.

Lemma jsstring_eqb_eq (a b : jsstring) : jsstring_eqb a b = true <-> a = b.
Proof.
  unfold jsstring_eqb. destruct (list_eq_dec N.eq_dec a b); split;
    congruence.
Qed.

Lemma jsstring_eqb_refl (a : jsstring) : jsstring_eqb a a = true.
Proof. apply jsstring_eqb_eq. reflexivity. Qed.

Lemma seen_In (u : jsstring) (seen : list jsstring) :
  existsb (jsstring_eqb u) seen = true <-> In u seen.
Proof.
  rewrite existsb_exists. split.
  - intros [y [Hy E]]. apply jsstring_eqb_eq in E. now subst.
  - intros H. exists u. split; [assumption | apply jsstring_eqb_refl].
Qed.

Lemma findIndex_lower (A : Type) (p : A -> bool) (a : list A) :
  (-1 <= findIndex p a)%Z.
Proof.
  induction a as [|x a IH]; simpl; [lia|].
  destruct (p x); [lia|]. destruct (findIndex p a); lia.
Qed.

(** Past a prefix without a hit, [findIndex] is shifted by its length. *)
Lemma findIndex_skip (A : Type) (p : A -> bool) (pre s : list A) :
  existsb p pre = false ->
  findIndex p (pre ++ s)
  = if (findIndex p s <? 0)%Z then (-1)%Z
    else (Z.of_nat (length pre) + findIndex p s)%Z.
Proof.
  induction pre as [|x pre IH]; intros H.
  - simpl. pose proof (findIndex_lower p s).
    destruct (Z.ltb_spec (findIndex p s) 0); lia.
  - simpl in H. apply orb_false_iff in H. destruct H as [Hx Hpre].
    cbn [app findIndex]. rewrite Hx. rewrite (IH Hpre).
    pose proof (findIndex_lower p s).
    destruct (Z.ltb_spec (findIndex p s) 0).
    + reflexivity.
    + destruct (Z.of_nat (length pre) + findIndex p s)%Z eqn:E;
        cbn [length]; lia.
Qed.

(** With a hit inside the prefix, [findIndex] stays inside the prefix. *)
Lemma findIndex_hit (A : Type) (p : A -> bool) (pre s : list A) :
  existsb p pre = true ->
  (0 <= findIndex p (pre ++ s) < Z.of_nat (length pre))%Z.
Proof.
  induction pre as [|x pre IH]; intros H; [discriminate|].
  cbn [app findIndex length]. destruct (p x) eqn:Hx; [lia|].
  simpl in H. rewrite Hx in H. simpl in H. specialize (IH H).
  destruct (findIndex p (pre ++ s)); lia.
Qed.

Lemma seen_map_uri (u : jsstring) (pre : list SearchResult) :
  existsb (fun t => jsstring_eqb (uri t) u) pre
  = existsb (jsstring_eqb u) (map uri pre).
Proof.
  induction pre as [|x pre IH]; simpl; [reflexivity|].
  rewrite IH. f_equal.
  destruct (jsstring_eqb (uri x) u) eqn:E1, (jsstring_eqb u (uri x)) eqn:E2;
    try reflexivity.
  - apply jsstring_eqb_eq in E1. subst. now rewrite jsstring_eqb_refl in E2.
  - apply jsstring_eqb_eq in E2. subst. now rewrite jsstring_eqb_refl in E1.
Qed.

Lemma existsb_rev_seen (u : jsstring) (l : list jsstring) :
  existsb (jsstring_eqb u) (rev l) = existsb (jsstring_eqb u) l.
Proof.
  destruct (existsb (jsstring_eqb u) l) eqn:E.
  - apply seen_In. apply in_rev. rewrite rev_involutive. now apply seen_In.
  - destruct (existsb (jsstring_eqb u) (rev l)) eqn:E'; [|reflexivity].
    apply seen_In in E'. apply in_rev in E'. apply seen_In in E'. congruence.
Qed.

Lemma keep_first_seen_ext (s1 s2 : list jsstring) (l : list SearchResult) :
  (forall u, In u s1 <-> In u s2) -> keep_first s1 l = keep_first s2 l.
Proof.
  revert s1 s2. induction l as [|x l IH]; intros s1 s2 H; [reflexivity|].
  simpl.
  assert (E : existsb (jsstring_eqb (uri x)) s1
              = existsb (jsstring_eqb (uri x)) s2).
  { destruct (existsb (jsstring_eqb (uri x)) s1) eqn:E1;
      destruct (existsb (jsstring_eqb (uri x)) s2) eqn:E2; try reflexivity.
    - apply seen_In in E1. apply H in E1. apply seen_In in E1. congruence.
    - apply seen_In in E2. apply H in E2. apply seen_In in E2. congruence. }
  rewrite E. destruct (existsb (jsstring_eqb (uri x)) s2).
  - now apply IH.
  - f_equal. apply IH. intros u. simpl. now rewrite H.
Qed.

(** The index test of line 63, run over the tail [l] of [pre ++ l], keeps
    what [keep_first] keeps once the URIs of [pre] have been met. *)
Lemma filter_from_keep_first (pre l : list SearchResult) :
  filter_from
    (fun v i =>
       Z.eqb (findIndex (fun t => jsstring_eqb (uri t) (uri v)) (pre ++ l)) i)
    (Z.of_nat (length pre)) l
  = keep_first (map uri pre) l.
Proof.
  revert pre. induction l as [|x l IH]; intros pre; [reflexivity|].
  cbn [filter_from keep_first].
  rewrite <- seen_map_uri.
  destruct (existsb (fun t => jsstring_eqb (uri t) (uri x)) pre) eqn:Hseen.
  - pose proof (findIndex_hit (fun t => jsstring_eqb (uri t) (uri x))
                  pre (x :: l) Hseen) as Hb.
    destruct (Z.eqb_spec
                (findIndex (fun t => jsstring_eqb (uri t) (uri x))
                   (pre ++ x :: l)) (Z.of_nat (length pre))); [lia|].
    specialize (IH (pre ++ [x])).
    rewrite <- app_assoc in IH. cbn [app] in IH.
    rewrite length_app in IH. cbn [length] in IH.
    replace (Z.succ (Z.of_nat (length pre)))
      with (Z.of_nat (length pre + 1)) by lia.
    rewrite IH. apply keep_first_seen_ext. intros u.
    rewrite map_app. cbn [map]. rewrite in_app_iff. simpl.
    rewrite seen_map_uri in Hseen. apply seen_In in Hseen.
    split; [intros [H|[H|[]]]; [assumption | now subst] | tauto].
  - rewrite (findIndex_skip _ pre (x :: l) Hseen).
    cbn [findIndex]. rewrite jsstring_eqb_refl. cbn.
    rewrite Z.add_0_r, Z.eqb_refl. f_equal.
    specialize (IH (pre ++ [x])).
    rewrite <- app_assoc in IH. cbn [app] in IH.
    rewrite length_app in IH. cbn [length] in IH.
    replace (Z.succ (Z.of_nat (length pre)))
      with (Z.of_nat (length pre + 1)) by lia.
    rewrite IH. apply keep_first_seen_ext. intros u.
    rewrite map_app. cbn [map]. rewrite in_app_iff. simpl. tauto.
Qed.

Lemma uniqueSources_keep_first (a : list SearchResult) :
  uniqueSources a = keep_first [] a.
Proof. exact (filter_from_keep_first [] a). Qed.

Lemma keep_first_In (seen : list jsstring) (l : list SearchResult)
    (u : jsstring) :
  In u (map uri (keep_first seen l)) <-> In u (map uri l) /\ ~ In u seen.
Proof.
  revert seen. induction l as [|x l IH]; intros seen; simpl; [tauto|].
  destruct (existsb (jsstring_eqb (uri x)) seen) eqn:E.
  - apply seen_In in E. rewrite IH. split.
    + tauto.
    + intros [[H|H] Hn]; [subst; contradiction | tauto].
  - assert (Hx : ~ In (uri x) seen).
    { intros H. apply seen_In in H. congruence. }
    simpl. rewrite IH. simpl. split.
    + intros [H|[H Hn]]; [subst; tauto | tauto].
    + intros [[H|H] Hn]; [tauto|].
      destruct (list_eq_dec N.eq_dec (uri x) u); [tauto|]. right. tauto.
Qed.

Lemma keep_first_NoDup (seen : list jsstring) (l : list SearchResult) :
  NoDup (map uri (keep_first seen l)).
Proof.
  revert seen. induction l as [|x l IH]; intros seen; simpl; [constructor|].
  destruct (existsb (jsstring_eqb (uri x)) seen); [apply IH|].
  simpl. constructor; [|apply IH].
  rewrite keep_first_In. simpl. tauto.
Qed.

(** The URIs [collect] pushes are the truthy [web.uri] of the chunks. *)
Lemma collect_In (chunks : list Chunk) (u : jsstring) :
  In u (map uri (collect chunks))
  <-> u <> [] /\ exists c w, In c chunks /\ web c = Some w
                             /\ web_uri w = Some u.
Proof.
  induction chunks as [|c chunks IH]; simpl.
  - split; [tauto | intros [_ [c [w [[] _]]]]].
  - assert (Hrest :
      In u (map uri (collect chunks)) ->
      u <> [] /\ exists c0 w, (c = c0 \/ In c0 chunks) /\ web c0 = Some w
                              /\ web_uri w = Some u).
    { intros H. apply IH in H. destruct H as [Hu [c0 [w [Hin H]]]].
      split; [assumption|]. exists c0, w. tauto. }
    destruct (web c) as [w|] eqn:Hw.
    + destruct (web_uri w) as [v|] eqn:Hv.
      * destruct v as [|v0 v'] eqn:Ev; cbn [truthy].
        -- split; [exact Hrest|].
           intros [Hu [c0 [w0 [[Hc|Hc] [H1 H2]]]]].
           ++ subst c0. congruence.
           ++ apply IH. split; [assumption|]. now exists c0, w0.
        -- cbn [map uri In]. split.
           ++ intros [H|H]; [|now apply Hrest].
              subst u. split; [discriminate|]. exists c, w. tauto.
           ++ intros [Hu [c0 [w0 [[Hc|Hc] [H1 H2]]]]].
              ** subst c0. left. congruence.
              ** right. apply IH. split; [assumption|]. now exists c0, w0.
      * split; [exact Hrest|].
        intros [Hu [c0 [w0 [[Hc|Hc] [H1 H2]]]]].
        -- subst c0. congruence.
        -- apply IH. split; [assumption|]. now exists c0, w0.
    + split; [exact Hrest|].
      intros [Hu [c0 [w0 [[Hc|Hc] [H1 H2]]]]].
      * subst c0. congruence.
      * apply IH. split; [assumption|]. now exists c0, w0.
Qed.

(** C6. For every list of citation chunks, the sources of the response
    are the entries with a non-empty URI, in their original order, each
    URI kept at its first occurrence only: the list is what [keep_first]
    keeps of the collected entries, no URI occurs twice in it, and a URI
    occurs in it exactly when it is the non-empty URI of some chunk. The
    chunks a, b, a yield the sources a, b. *)
Theorem sources_deduplicated (query : jsstring) (text : option jsstring)
    (chunks : list Chunk) :
  let out :=
    sources
      (searchAndSummarize_result query
         {| reply_text := text; groundingChunks := Some chunks |}) in
  out = keep_first [] (collect chunks)
  /\ NoDup (map uri out)
  /\ (forall u, In u (map uri out)
        <-> u <> [] /\ exists c w, In c chunks /\ web c = Some w
                                   /\ web_uri w = Some u)
  /\ map uri
       (sources
          (searchAndSummarize_result query
             {| reply_text := text;
                groundingChunks :=
                  Some [chunk_of "a"; chunk_of "b"; chunk_of "a"] |}))
     = [js "a"; js "b"].
Proof.
  assert (E : forall cs,
    sources (searchAndSummarize_result query
               {| reply_text := text; groundingChunks := Some cs |})
    = keep_first [] (collect cs)).
  { intros cs. unfold searchAndSummarize_result.
    destruct (parse_text query _). cbn [sources groundingChunks sources_of].
    apply uniqueSources_keep_first. }
  cbn zeta. rewrite !E.
  split; [reflexivity|].
  split; [apply keep_first_NoDup|].
  split; [|vm_compute; reflexivity].
  intros u. rewrite keep_first_In, collect_In. tauto.
Qed.

End Citations.

(* ------------------------------------------------------------------ *)
(** ** The marker line *)
(* ------------------------------------------------------------------ *)

Module Marker.

Lemma star_greedy (A : Type) (cls : N -> bool)
    (k : jsstring -> jsstring -> option A) (s acc : jsstring) (r : A) :
  k (acc ++ takeWhile cls s) (dropWhile cls s) = Some r ->
  star cls k acc s = Some r.
Proof.
  revert acc. induction s as [|c s IH]; intros acc H; simpl in *.
  - now rewrite app_nil_r in H.
  - destruct (cls c).
    + rewrite (IH (acc ++ [c])); [reflexivity|].
      now rewrite <- app_assoc.
    + now rewrite app_nil_r in H.
Qed.

Lemma dropWhile_idem (p : N -> bool) (s : jsstring) :
  dropWhile p (dropWhile p s) = dropWhile p s.
Proof.
  induction s as [|c s IH]; simpl; [reflexivity|].
  destruct (p c) eqn:E; [assumption|]. simpl. now rewrite E.
Qed.

Lemma takeWhile_all (p : N -> bool) (s : jsstring) :
  forallb p s = true -> takeWhile p s = s /\ dropWhile p s = [].
Proof.
  induction s as [|c s IH]; simpl; [tauto|].
  intros H. apply andb_true_iff in H. destruct H as [Hc Hs].
  rewrite Hc. destruct (IH Hs) as [E1 E2]. now rewrite E1, E2.
Qed.

Lemma trim_dropWhile (s : jsstring) : trim (dropWhile is_space s) = trim s.
Proof. unfold trim. now rewrite dropWhile_idem. Qed.

Lemma lit_ci_app (p m r x : jsstring) :
  lit_ci p m = Some r -> lit_ci p (m ++ x) = Some (r ++ x).
Proof.
  revert m. induction p as [|a p IH]; intros m H; simpl in *.
  - now inversion H.
  - destruct m as [|c m]; [discriminate|]. simpl.
    destruct (ci_eq a c); [now apply IH | discriminate].
Qed.

(** At an occurrence of the marker the expression of line 44 always
    matches: group 1 is the rest of the line after the white space. *)
Lemma re_query_at_marker (s r : jsstring) :
  lit_ci MARK s = Some r ->
  re_query_at s
  = Some (takeWhile is_dot (dropWhile is_space r),
          dropWhile is_dot (dropWhile is_space r)).
Proof.
  intros H. unfold re_query_at. rewrite H.
  apply star_greedy. apply star_greedy. reflexivity.
Qed.

Lemma re_query_at_none (s : jsstring) :
  marker_at s = false -> re_query_at s = None.
Proof.
  unfold marker_at, re_query_at. destruct (lit_ci MARK s); congruence.
Qed.

Lemma re_strip_at_none (s : jsstring) :
  marker_at s = false -> re_strip_at s = None.
Proof.
  unfold marker_at, re_strip_at. destruct (lit_ci MARK s); congruence.
Qed.

(** The expression of line 47 matches at an occurrence of the marker when
    only white space and one line of text follow, up to the end. *)
Lemma re_strip_at_marker (s r : jsstring) :
  lit_ci MARK s = Some r ->
  forallb is_dot (dropWhile is_space r) = true ->
  re_strip_at s = Some [].
Proof.
  intros H Hline. unfold re_strip_at. rewrite H.
  apply star_greedy. apply star_greedy.
  destruct (takeWhile_all _ _ Hline) as [_ E]. now rewrite E.
Qed.

Lemma search_none (A : Type) (m : jsstring -> option A) (s : jsstring) :
  (forall t, marker_at t = false -> m t = None) ->
  first_marker s = None -> search m s = None.
Proof.
  intros Hm. induction s as [|c s IH]; simpl; intros H.
  - destruct (marker_at []) eqn:E; [discriminate|]. now rewrite (Hm _ E).
  - destruct (marker_at (c :: s)) eqn:E; [discriminate|].
    rewrite (Hm _ E). destruct (first_marker s); [discriminate|].
    now rewrite IH.
Qed.

Lemma search_first (A : Type) (m : jsstring -> option A)
    (pre t : jsstring) (a : A) :
  (forall t, marker_at t = false -> m t = None) ->
  first_marker (pre ++ t) = Some (length pre) ->
  m t = Some a ->
  search m (pre ++ t) = Some (pre, a).
Proof.
  intros Hm. induction pre as [|c pre IH]; intros H Ht.
  - simpl. destruct t; simpl; now rewrite Ht.
  - cbn [app length] in *. simpl in H.
    destruct (marker_at (c :: pre ++ t)) eqn:E; [discriminate|].
    simpl. rewrite (Hm _ E).
    destruct (first_marker (pre ++ t)) as [i|] eqn:F; [|discriminate].
    simpl in H. injection H as H. subst i. now rewrite IH.
Qed.

(** C5, as amended. For every query and backend text:
    - if the text is [pre ++ m ++ rest] where [m] spells the marker
      QUERY_USED: in some letter case, no occurrence of the marker starts
      before [m], and [rest] is white space followed by one line of text
      that runs to the very end of the text, then [actualQuery] is [rest]
      trimmed and [summary] is [pre] trimmed;
    - if the marker occurs nowhere in the text, in any letter case, then
      [actualQuery] is the input query and [summary] is the whole text. *)
Theorem marker_line_parsed (query fullText : jsstring) :
  (forall pre m rest,
     fullText = pre ++ m ++ rest ->
     lit_ci MARK m = Some [] ->
     first_marker fullText = Some (length pre) ->
     forallb is_dot (dropWhile is_space rest) = true ->
     parse_text query fullText = (trim pre, trim rest))
  /\ (first_marker fullText = None ->
      parse_text query fullText = (fullText, query)).
Proof.
  split.
  - intros pre m rest -> Hm Hfirst Hline.
    pose proof (lit_ci_app _ _ rest Hm) as Hlit. cbn [app] in Hlit.
    unfold parse_text, match_group1, replace_empty.
    rewrite (search_first re_query_at pre (m ++ rest)
               re_query_at_none Hfirst (re_query_at_marker _ Hlit)).
    rewrite (search_first re_strip_at pre (m ++ rest)
               re_strip_at_none Hfirst (re_strip_at_marker _ Hlit Hline)).
    destruct (takeWhile_all _ _ Hline) as [E _]. rewrite E.
    now rewrite app_nil_r, trim_dropWhile.
  - intros Hnone. unfold parse_text, match_group1.
    now rewrite (search_none re_query_at fullText re_query_at_none Hnone).
Qed.

Lemma marker_line_parsed_witness :
  parse_text (js "paris")
    (js "Paris is old. " ++ [10%N] ++ js "query_used:  Paris history ")
  = (js "Paris is old.", js "Paris history")
  /\ parse_text (js "paris") (js "Paris is old.")
     = (js "Paris is old.", js "paris").
Proof.
  split.
  - apply (proj1 (marker_line_parsed (js "paris")
                    (js "Paris is old. " ++ [10%N]
                     ++ js "query_used:  Paris history "))
             (js "Paris is old. " ++ [10%N]) (js "query_used:")
             (js "  Paris history ")); reflexivity.
  - apply (proj2 (marker_line_parsed (js "paris") (js "Paris is old.")));
      reflexivity.
Defined.

(** Counterexample to C5 as the specification words it: the marker
    occurs twice, the text ends in the marker line of [Paris history],
    and [actualQuery] is the text of the first occurrence. *)
Lemma trailing_marker_not_first :
  ~ (forall query pre text : jsstring,
       forallb is_dot text = true ->
       parse_text query (pre ++ js "QUERY_USED: " ++ text)
       = (trim pre, trim text)).
Proof.
  intros H.
  specialize (H (js "paris") (js "QUERY_USED: first" ++ [10%N])
                (js "Paris history") eq_refl).
  vm_compute in H. discriminate H.
Qed.

Example parse_paris :
  parse_text (js "paris")
    (js "Paris is old. " ++ [10%N] ++ js "QUERY_USED: Paris history")
  = (js "Paris is old.", js "Paris history").
Proof. vm_compute. reflexivity. Qed.

Example parse_two_markers :
  parse_text (js "paris")
    (js "QUERY_USED: first" ++ [10%N] ++ js "QUERY_USED: Paris history")
  = (js "QUERY_USED: first", js "first").
Proof. vm_compute. reflexivity. Qed.

Example parse_trailing_newline :
  parse_text (js "paris") (js "Old. QUERY_USED: Paris history" ++ [10%N])
  = (js "Old. QUERY_USED: Paris history", js "Paris history").
Proof. vm_compute. reflexivity. Qed.

End Marker.

(* ------------------------------------------------------------------ *)
(** ** The core flow *)
(* ------------------------------------------------------------------ *)

Module Flow.

Lemma update_node_last (f : Node -> Node) (ns : list Node) (x : Node) :
  update_node (length ns) f (ns ++ [x]) = ns ++ [f x].
Proof. induction ns as [|y ns IH]; simpl; [reflexivity | now rewrite IH]. Qed.

(** Symbolic execution of a handler: the monad, the setters and the
    projections of the world are unfolded; strings, lists and the replies
    of the environment are left as they are. *)
Ltac run_handler :=
  lazy beta iota zeta delta
    [performSearchFlow flow_body flow_catch searchAndSummarize
     generateSpeech decodeAudioData tweakQuery generateRandomPrompt
     refineQuery stopAudio onended replay
     handleSearch handleWorkshop handleFeelingLucky handleFindMore
     handleGoBack handleHistoryClick host_buffer_end host_dispatch_ended
     try_catch bind get skip ret throw modify exec fst snd
     status_eqb isSearching negb andb orb
     setStatus addLog setLogs setError setQuery setPlaybackFinished
     setIsLuckyLoading setResults setHistory remote ensureAudioContext
     createBufferSource setCurrentSource startSource stopSource
     set_node_state node_state_at record_event with_query with_status
     with_results with_error with_logs with_playbackFinished
     with_isLuckyLoading with_history with_audioContextRef
     with_currentSourceRef with_nodes
     query status results error logs playbackFinished isLuckyLoading
     history audioContextRef currentSourceRef nodes trace].

Ltac open_world w :=
  destruct w as [q0 s0 r0 e0 l0 p0 k0 h0 a0 c0 n0 t0];
  cbn [query status results error logs playbackFinished isLuckyLoading
       history audioContextRef currentSourceRef nodes trace] in *.

Ltac assoc_lists := repeat rewrite <- app_assoc; cbn [app].

Lemma flow_success (env : Env) (q : jsstring) (w : World)
    (r : SearchReply) (d : jsstring) (buf : AudioBuffer) :
  let res := searchAndSummarize_result q r in
  backend_search env q = inr r ->
  backend_speech env (summary res) = inr (Some d) ->
  truthy d = true ->
  decode env d = inr buf ->
  performSearchFlow env q w
  = (Ok tt,
     {| query := query w; status := PLAYING; results := Some res;
        error := None;
        logs := logs w ++
          [ js "Analyzing request: " ++ quoted q;
            js "Consulting Google Search for real-time information...";
            js "Found " ++ nat_to_js (length (sources res))
              ++ js " relevant sources.";
            js "Model used search term: " ++ quoted (actualQuery res);
            js "Synthesizing search results into concise summary...";
            js "Converting summary to speech using Gemini TTS...";
            js "Playing audio summary." ];
        playbackFinished := false;
        isLuckyLoading := isLuckyLoading w;
        history := push_history (newItem_of env q res) (history w);
        audioContextRef := true;
        currentSourceRef := Some (length (nodes w));
        nodes := nodes w ++
          [{| node_buffer := buf; node_state := NodePlaying |}];
        trace := trace w ++
          [ EvStatus ANALYZING;
            EvLog (js "Analyzing request: " ++ quoted q);
            EvStatus SEARCHING;
            EvLog (js "Consulting Google Search for real-time information...");
            EvCall (CallSearch q);
            EvLog (js "Found " ++ nat_to_js (length (sources res))
                   ++ js " relevant sources.");
            EvLog (js "Model used search term: " ++ quoted (actualQuery res));
            EvStatus SYNTHESIZING;
            EvLog (js "Synthesizing search results into concise summary...");
            EvStatus GENERATING_AUDIO;
            EvLog (js "Converting summary to speech using Gemini TTS...");
            EvCall (CallSpeech (summary res));
            EvStatus PLAYING;
            EvLog (js "Playing audio summary.");
            EvNodeStart (length (nodes w)) ] |}).
Proof.
  intros res Hs Ht Hd Hb. subst res. open_world w.
  destruct a0;
    run_handler; rewrite Hs; run_handler; rewrite Ht; run_handler;
    rewrite Hd; run_handler; rewrite Hb; run_handler;
    rewrite update_node_last; assoc_lists; reflexivity.
Qed.

Lemma emitted_app (w w' : World) (es : list Event) :
  trace w' = trace w ++ es -> emitted w w' = es.
Proof.
  intros H. unfold emitted. rewrite H.
  rewrite skipn_app, skipn_all, Nat.sub_diag. reflexivity.
Qed.

(** The six ways a run of the flow can go. *)
Ltac split_replies env q :=
  destruct (backend_search env q) as [e1|r1];
  [| run_handler;
     destruct (backend_speech env (summary (searchAndSummarize_result q r1)))
       as [e2|[d|]];
     [| run_handler; destruct (truthy d) eqn:Hd;
        [ run_handler; destruct (decode env d) as [e3|buf] | ] | ] ].

(** Where the flow writes the history: right after the search. *)
Lemma performSearchFlow_history (env : Env) (q : jsstring) (w : World) :
  history (exec (performSearchFlow env q) w)
  = match backend_search env q with
    | inl _ => history w
    | inr r =>
        push_history (newItem_of env q (searchAndSummarize_result q r))
          (history w)
    end.
Proof.
  open_world w. destruct a0; run_handler; split_replies env q;
    run_handler; reflexivity.
Qed.

(** What the flow does to the log and to the trace, whatever is replied:
    it only ever adds lines. *)
Lemma performSearchFlow_appends (env : Env) (q : jsstring) (w : World) :
  exists es,
    trace (exec (performSearchFlow env q) w) = trace w ++ es
    /\ forallb (fun e => negb (resets_log e)) es = true
    /\ logs (exec (performSearchFlow env q) w) = logs w ++ log_writes es.
Proof.
  open_world w. destruct a0; run_handler; split_replies env q;
    run_handler; rewrite ?update_node_last; assoc_lists;
    (eexists; split; [reflexivity | split; reflexivity]).
Qed.

(** C1, as amended. Replay, invoked while an active SearchResponse exists
    and the state is Idle or Error (the states in which the button is
    enabled), re-runs the whole core flow on the current query: when the
    remote calls succeed the state goes through Analyzing, Searching,
    Synthesizing, GeneratingAudio and Playing, [searchAndSummarize] is
    called again with the current query, the speech is generated from the
    summary of the new response, which becomes the active one, and a
    history entry is written. *)
Theorem replay_reruns_flow (env : Env) (w : World) (active : SearchResponse)
    (r : SearchReply) (d : jsstring) (buf : AudioBuffer) :
  let res := searchAndSummarize_result (query w) r in
  results w = Some active ->
  status w = IDLE \/ status w = ERROR ->
  backend_search env (query w) = inr r ->
  backend_speech env (summary res) = inr (Some d) ->
  truthy d = true ->
  decode env d = inr buf ->
  let w' := exec (replay env) w in
  replay_enabled w = true
  /\ statuses (emitted w w')
     = [ANALYZING; SEARCHING; SYNTHESIZING; GENERATING_AUDIO; PLAYING]
  /\ calls (emitted w w') = [CallSearch (query w); CallSpeech (summary res)]
  /\ results w' = Some res
  /\ status w' = PLAYING
  /\ history w' = push_history (newItem_of env (query w) res) (history w).
Proof.
  intros res Hres Hst Hs Ht Hd Hb w'.
  assert (E : w' = snd (performSearchFlow env (query w) w)) by reflexivity.
  rewrite (flow_success env (query w) w Hs Ht Hd Hb) in E. cbn [snd] in E.
  split.
  { unfold replay_enabled, isSearching. rewrite Hres.
    destruct Hst as [-> | ->]; reflexivity. }
  assert (Hem : emitted w w' = skipn (length (trace w)) (trace w'))
    by reflexivity.
  rewrite Hem, E. cbn [trace results status history].
  rewrite skipn_app, skipn_all, Nat.sub_diag. cbn [skipn app].
  repeat split; reflexivity.
Qed.

Lemma replay_reruns_flow_witness :
  let w' := exec (replay ok_env) idle_world in
  replay_enabled idle_world = true
  /\ statuses (emitted idle_world w')
     = [ANALYZING; SEARCHING; SYNTHESIZING; GENERATING_AUDIO; PLAYING]
  /\ calls (emitted idle_world w')
     = [CallSearch (js "paris"); CallSpeech (js "Paris is old.")]
  /\ results w'
     = Some (searchAndSummarize_result (js "paris") sample_reply)
  /\ status w' = PLAYING
  /\ history w'
     = push_history
         (newItem_of ok_env (js "paris")
            (searchAndSummarize_result (js "paris") sample_reply))
         (history idle_world).
Proof.
  apply (@replay_reruns_flow ok_env idle_world
           (searchAndSummarize_result (js "paris") sample_reply)
           sample_reply (js "UklGRg==") [0%Z; 1%Z]);
    solve [reflexivity | left; reflexivity].
Defined.

(** Counterexample to C1 as the specification words it: from Idle with
    an active result, Replay starts at Analyzing and sends a search
    request. *)
Lemma replay_calls_search :
  let w' := exec (replay ok_env) idle_world in
  status idle_world = IDLE
  /\ is_some (results idle_world) = true
  /\ statuses (emitted idle_world w')
     = [ANALYZING; SEARCHING; SYNTHESIZING; GENERATING_AUDIO; PLAYING]
  /\ In (CallSearch (js "paris")) (calls (emitted idle_world w'))
  /\ ~ (statuses (emitted idle_world w') = [GENERATING_AUDIO; PLAYING]
        /\ ~ In (CallSearch (js "paris")) (calls (emitted idle_world w'))).
Proof.
  cbv zeta. repeat split; try (vm_compute; reflexivity).
  - vm_compute. left. reflexivity.
  - intros [H _]. vm_compute in H. discriminate H.
Qed.

(** C2, as amended. For every run of the search flow, the HistoryEntry is
    added as soon as [searchAndSummarize] has succeeded, before the speech
    is requested: if the search fails the history is left unchanged by the
    flow; if the search succeeds the history is the new entry followed by
    the first 19 earlier ones, whether or not the later phases succeed. *)
Theorem history_written_after_search (env : Env) (q : jsstring) (w : World) :
  history (exec (performSearchFlow env q) w)
  = match backend_search env q with
    | inl _ => history w
    | inr r =>
        newItem_of env q (searchAndSummarize_result q r)
        :: firstn 19 (history w)
    end.
Proof. exact (performSearchFlow_history env q w). Qed.

(** Counterexample to C2 as the specification words it: the speech
    request is rejected after the search succeeded, the flow ends in
    Error, and the history has gained the entry of that flow. *)
Lemma failed_flow_in_history :
  let w' := exec (performSearchFlow mute_env (js "paris")) initial in
  status w' = ERROR
  /\ error w' = Some (js "quota exceeded")
  /\ history initial = []
  /\ history w'
     = [newItem_of mute_env (js "paris")
          (searchAndSummarize_result (js "paris") sample_reply)]
  /\ history w' <> history initial.
Proof.
  cbv zeta. repeat split; try (vm_compute; reflexivity).
  vm_compute. discriminate.
Qed.

(** The world in which the [try] of the flow starts. *)
Lemma performSearchFlow_try (env : Env) (q : jsstring) (w : World) :
  performSearchFlow env q w
  = try_catch (flow_body env q) flow_catch
      (with_playbackFinished false (with_error None w)).
Proof. reflexivity. Qed.

(** Once the search has succeeded, a throwing body leaves its response
    active. *)
Lemma flow_body_throw_results (env : Env) (q : jsstring) (w w' : World)
    (r : SearchReply) (e : Err) :
  backend_search env q = inr r ->
  flow_body env q w = (Throw e, w') ->
  results w' = Some (searchAndSummarize_result q r).
Proof.
  intros Hs. open_world w. run_handler. rewrite Hs. run_handler.
  destruct (backend_speech env (summary (searchAndSummarize_result q r)))
    as [e2|[d|]];
    [| run_handler; destruct (truthy d) eqn:Hd;
       [ run_handler; destruct a0; run_handler;
         destruct (decode env d) as [e3|buf] | ] | ];
    run_handler; intros H; inversion H; subst; reflexivity.
Qed.

(** C8. If [searchAndSummarize] succeeds and a later phase of the same
    flow throws (speech generation, missing audio data, decoding), the
    response stored at the Synthesizing phase is still the active one
    after the failure handling, which is the [catch] applied to the world
    the failed phase left: it sets the error field, sets the state to
    Error and appends one line to the log, and changes nothing else. *)
Theorem failure_keeps_active_result (env : Env) (q : jsstring)
    (w w' : World) (r : SearchReply) (e : Err) :
  backend_search env q = inr r ->
  flow_body env q (with_playbackFinished false (with_error None w))
  = (Throw e, w') ->
  let res := searchAndSummarize_result q r in
  let wf := exec (performSearchFlow env q) w in
  results w' = Some res
  /\ wf = exec (flow_catch e) w'
  /\ results wf = Some res
  /\ status wf = ERROR
  /\ error wf
     = Some (or_else (message e) (js "Search failed. Please try again."))
  /\ logs wf = logs w' ++ [js "Error: " ++ message_text e]
  /\ query wf = query w'
  /\ history wf = history w'
  /\ playbackFinished wf = playbackFinished w'
  /\ isLuckyLoading wf = isLuckyLoading w'
  /\ audioContextRef wf = audioContextRef w'
  /\ currentSourceRef wf = currentSourceRef w'
  /\ nodes wf = nodes w'.
Proof.
  intros Hs Hbody res wf.
  pose proof (flow_body_throw_results _ _ _ Hs Hbody) as Hres.
  assert (E : wf = exec (flow_catch e) w').
  { unfold wf, exec. rewrite performSearchFlow_try.
    unfold try_catch. now rewrite Hbody. }
  split; [exact Hres|]. split; [exact E|].
  rewrite E. clear E wf Hbody. open_world w'. run_handler.
  repeat split; assumption.
Qed.

Lemma failure_keeps_active_result_witness :
  let wf := exec (performSearchFlow mute_env (js "paris")) initial in
  results wf = Some (searchAndSummarize_result (js "paris") sample_reply)
  /\ status wf = ERROR
  /\ error wf = Some (js "quota exceeded").
Proof.
  pose proof (@failure_keeps_active_result mute_env (js "paris") initial
                (snd (flow_body mute_env (js "paris")
                        (with_playbackFinished false
                           (with_error None initial))))
                sample_reply
                {| message := Some (js "quota exceeded") |}
                eq_refl eq_refl) as H.
  cbv zeta in *. destruct H as [_ [_ [H1 [H2 [H3 _]]]]].
  split; [exact H1|]. split; [exact H2|]. rewrite H3. reflexivity.
Defined.

(** The three later failures the flow knows all make the body throw. *)
Lemma later_failures_throw (env : Env) (q : jsstring) (w : World)
    (r : SearchReply) :
  backend_search env q = inr r ->
  let text := summary (searchAndSummarize_result q r) in
  (forall e, backend_speech env text = inl e ->
     fst (flow_body env q w) = Throw e)
  /\ (backend_speech env text = inr None ->
      fst (flow_body env q w)
      = Throw {| message := Some (js "Audio generation failed.") |})
  /\ (forall d e, backend_speech env text = inr (Some d) ->
       truthy d = true -> decode env d = inl e ->
       fst (flow_body env q w) = Throw e).
Proof.
  intros Hs text. subst text. open_world w.
  repeat split.
  - intros e He. run_handler. rewrite Hs. run_handler. now rewrite He.
  - intros He. run_handler. rewrite Hs. run_handler. now rewrite He.
  - intros d e He Hd Hdec. run_handler. rewrite Hs. run_handler.
    rewrite He. run_handler. rewrite Hd. run_handler.
    destruct a0; run_handler; now rewrite Hdec.
Qed.

(** C9. For all replies of the remote assistant, one run of the core
    flow only appends to the log: the events it emits contain no
    replacement of the log, and the log it leaves is the log it found
    followed by the lines it wrote, in order. When the flow succeeds end
    to end, the state is written and the log line of each phase follows
    in the order Analyzing, Searching, Synthesizing, GeneratingAudio,
    Playing, no phase being skipped. *)
Theorem log_append_only_in_phase_order (env : Env) (q : jsstring)
    (w : World) :
  let w' := exec (performSearchFlow env q) w in
  (exists es,
     trace w' = trace w ++ es
     /\ forallb (fun e => negb (resets_log e)) es = true
     /\ logs w' = logs w ++ log_writes es)
  /\ (forall r d buf,
        let res := searchAndSummarize_result q r in
        backend_search env q = inr r ->
        backend_speech env (summary res) = inr (Some d) ->
        truthy d = true ->
        decode env d = inr buf ->
        statuses (emitted w w')
        = [ANALYZING; SEARCHING; SYNTHESIZING; GENERATING_AUDIO; PLAYING]
        /\ logs w' = logs w ++
             [ js "Analyzing request: " ++ quoted q;
               js "Consulting Google Search for real-time information...";
               js "Found " ++ nat_to_js (length (sources res))
                 ++ js " relevant sources.";
               js "Model used search term: " ++ quoted (actualQuery res);
               js "Synthesizing search results into concise summary...";
               js "Converting summary to speech using Gemini TTS...";
               js "Playing audio summary." ]
        /\ filter (fun e => negb (is_call e)) (emitted w w')
           = [ EvStatus ANALYZING;
               EvLog (js "Analyzing request: " ++ quoted q);
               EvStatus SEARCHING;
               EvLog (js "Consulting Google Search for real-time information...");
               EvLog (js "Found " ++ nat_to_js (length (sources res))
                      ++ js " relevant sources.");
               EvLog (js "Model used search term: "
                      ++ quoted (actualQuery res));
               EvStatus SYNTHESIZING;
               EvLog (js "Synthesizing search results into concise summary...");
               EvStatus GENERATING_AUDIO;
               EvLog (js "Converting summary to speech using Gemini TTS...");
               EvStatus PLAYING;
               EvLog (js "Playing audio summary.");
               EvNodeStart (length (nodes w)) ]).
Proof.
  intros w'. split; [apply performSearchFlow_appends|].
  intros r d buf res Hs Ht Hd Hb.
  assert (E : w' = snd (performSearchFlow env q w)) by reflexivity.
  rewrite (flow_success env q w Hs Ht Hd Hb) in E. cbn [snd] in E.
  fold res in E.
  assert (Hem : emitted w w' = skipn (length (trace w)) (trace w'))
    by reflexivity.
  rewrite Hem, E. cbn [trace logs].
  rewrite skipn_app, skipn_all, Nat.sub_diag. cbn [skipn app].
  repeat split; reflexivity.
Qed.

Lemma log_append_only_in_phase_order_witness :
  let w' := exec (performSearchFlow ok_env (js "paris")) idle_world in
  statuses (emitted idle_world w')
  = [ANALYZING; SEARCHING; SYNTHESIZING; GENERATING_AUDIO; PLAYING]
  /\ logs w' = logs idle_world ++
       [ js "Analyzing request: " ++ quoted (js "paris");
         js "Consulting Google Search for real-time information...";
         js "Found 2 relevant sources.";
         js "Model used search term: " ++ quoted (js "Paris history");
         js "Synthesizing search results into concise summary...";
         js "Converting summary to speech using Gemini TTS...";
         js "Playing audio summary." ].
Proof.
  destruct (proj2 (@log_append_only_in_phase_order ok_env (js "paris")
                     idle_world)
              sample_reply (js "UklGRg==") [0%Z; 1%Z]
              eq_refl eq_refl eq_refl eq_refl) as [H1 [H2 _]].
  split; [exact H1 | exact H2].
Defined.

End Flow.

(* ------------------------------------------------------------------ *)
(** ** Entry points, playback and the session store *)
(* ------------------------------------------------------------------ *)

Module Session.

Import Flow.

Lemma status_eqb_eq (a b : AppStatus) : status_eqb a b = true <-> a = b.
Proof. destruct a, b; simpl; split; congruence. Qed.

Lemma nth_error_update_node (n : nat) (f : Node -> Node) (ns : list Node) :
  nth_error (update_node n f ns) n = option_map f (nth_error ns n).
Proof.
  revert n. induction ns as [|x ns IH]; intros [|n]; simpl;
    try reflexivity. apply IH.
Qed.

(** The world [flow_awaiting_search] builds is the one in which the
    flow receives the reply to its search request: every run goes through
    it, and when the request is rejected the catch block runs in it. *)
Lemma flow_passes_search_request (env : Env) (q : jsstring) (w : World) :
  exists es,
    trace (exec (performSearchFlow env q) w)
    = trace (exec (flow_awaiting_search q) w) ++ es.
Proof.
  open_world w. unfold flow_awaiting_search.
  destruct a0; run_handler; split_replies env q; run_handler;
    rewrite ?update_node_last; eexists; assoc_lists; reflexivity.
Qed.

Lemma flow_fails_at_search_request (env : Env) (q : jsstring) (w : World)
    (e : Err) :
  backend_search env q = inl e ->
  performSearchFlow env q w
  = flow_catch e (exec (flow_awaiting_search q) w).
Proof.
  intros H. open_world w. unfold flow_awaiting_search.
  run_handler. rewrite H. run_handler. reflexivity.
Qed.

(** Line 462: the guard of [handleSearch]. *)
Lemma handleSearch_guard (env : Env) (w : World) :
  status w <> IDLE -> status w <> ERROR ->
  handleSearch env w = (Ok tt, w).
Proof.
  intros H1 H2. unfold handleSearch, bind, get, skip, ret.
  destruct (status w); try congruence; cbn; now rewrite orb_true_r.
Qed.



(** A click on a button that is offered is a call of its handler. *)
Lemma offered_buttons_call_handlers (env : Env) (w : World) :
  (workshop_enabled w = true ->
   click_workshop env w = handleWorkshop env w)
  /\ (findMore_offered w = true ->
      click_findMore env w = handleFindMore env w).
Proof.
  split; intros H; unfold click_workshop, click_findMore, bind, get;
    now rewrite H.
Qed.



(** Search while the audio is playing: the form is there, the query is
    not blank, and the guard of the handler rejects the call. *)
Example search_rejected_while_playing :
  status playing_world = PLAYING
  /\ truthy (trim (query playing_world)) = true
  /\ handleSearch ok_env playing_world = (Ok tt, playing_world).
Proof.
  split; [reflexivity|]. split; [reflexivity|].
  apply handleSearch_guard; vm_compute; discriminate.
Qed.

Lemma stopAudio_playing (w : World) (n : nat) :
  status w = PLAYING ->
  currentSourceRef w = Some n ->
  node_state_at n w = Some NodePlaying ->
  stopAudio w
  = (Ok tt,
     {| query := query w; status := IDLE; results := results w;
        error := error w; logs := logs w;
        playbackFinished := playbackFinished w;
        isLuckyLoading := isLuckyLoading w; history := history w;
        audioContextRef := audioContextRef w;
        currentSourceRef := None;
        nodes := update_node n
                   (fun x => {| node_buffer := node_buffer x;
                                node_state := NodeEndedPending |})
                   (nodes w);
        trace := trace w ++ [EvNodeStop n; EvStatus IDLE] |}).
Proof.
  intros Hst Hcur Hnode. open_world w. subst s0 c0.
  unfold node_state_at in Hnode. cbn [nodes] in Hnode.
  run_handler. rewrite Hnode. run_handler. assoc_lists. reflexivity.
Qed.

Lemma dispatch_pending (w : World) (n : nat) :
  node_state_at n w = Some NodeEndedPending ->
  host_dispatch_ended n w
  = (Ok tt,
     {| query := query w; status := IDLE; results := results w;
        error := error w;
        logs := logs w ++ [js "Playback finished."];
        playbackFinished := true;
        isLuckyLoading := isLuckyLoading w; history := history w;
        audioContextRef := audioContextRef w;
        currentSourceRef := None;
        nodes := update_node n
                   (fun x => {| node_buffer := node_buffer x;
                                node_state := NodeFinished |})
                   (nodes w);
        trace := trace w ++ [EvEnded n; EvStatus IDLE;
                             EvLog (js "Playback finished.")] |}).
Proof.
  intros Hnode. open_world w.
  unfold node_state_at in Hnode. cbn [nodes] in Hnode.
  run_handler. rewrite Hnode. run_handler. assoc_lists. reflexivity.
Qed.

(** C4, as amended. Invoking stop during the Playing state halts the
    output of the current node immediately, clears the current source and
    sets the state to Idle; stop itself neither sets the playback-finished
    flag nor writes to the log, and a subsequent stop call, with nothing
    playing, is a no-op. The completion callback stays attached to the
    stopped node: when the host dispatches the [ended] event of that
    node, the callback runs, sets the playback-finished flag and appends
    the line of the finished playback to the log. *)
Theorem stop_halts_and_leaves_callback (w : World) (n : nat) :
  status w = PLAYING ->
  currentSourceRef w = Some n ->
  node_state_at n w = Some NodePlaying ->
  let w1 := exec stopAudio w in
  let w2 := exec (host_dispatch_ended n) w1 in
  status w1 = IDLE
  /\ currentSourceRef w1 = None
  /\ node_state_at n w1 = Some NodeEndedPending
  /\ playbackFinished w1 = playbackFinished w
  /\ logs w1 = logs w
  /\ emitted w w1 = [EvNodeStop n; EvStatus IDLE]
  /\ stopAudio w1 = (Ok tt, w1)
  /\ playbackFinished w2 = true
  /\ logs w2 = logs w ++ [js "Playback finished."]
  /\ In (EvEnded n) (emitted w1 w2).
Proof.
  intros Hst Hcur Hnode w1 w2. subst w2 w1. unfold exec.
  rewrite (stopAudio_playing w Hst Hcur Hnode).
  set (w1 := snd (_, _)).
  assert (Hn1 : node_state_at n w1 = Some NodeEndedPending).
  { unfold w1, node_state_at. cbn [snd nodes].
    rewrite nth_error_update_node.
    unfold node_state_at in Hnode.
    destruct (nth_error (nodes w) n); [reflexivity | discriminate]. }
  rewrite (dispatch_pending w1 n Hn1).
  assert (Hstop : stopAudio w1 = (Ok tt, w1)).
  { unfold w1. cbn [snd]. clear. open_world w. run_handler. reflexivity. }
  split; [reflexivity|]. split; [reflexivity|]. split; [exact Hn1|].
  split; [reflexivity|]. split; [reflexivity|].
  split; [apply emitted_app; reflexivity|].
  split; [exact Hstop|].
  split; [reflexivity|]. split; [reflexivity|].
  rewrite (@emitted_app w1 _ [EvEnded n; EvStatus IDLE;
                               EvLog (js "Playback finished.")]).
  - left. reflexivity.
  - reflexivity.
Qed.

Lemma stop_halts_and_leaves_callback_witness :
  let w1 := exec stopAudio playing_world in
  let w2 := exec (host_dispatch_ended 0) w1 in
  status w1 = IDLE
  /\ playbackFinished w1 = false
  /\ stopAudio w1 = (Ok tt, w1)
  /\ playbackFinished w2 = true
  /\ logs w2 = logs playing_world ++ [js "Playback finished."].
Proof.
  destruct (@stop_halts_and_leaves_callback playing_world 0
              eq_refl eq_refl eq_refl)
    as [H1 [_ [_ [H4 [_ [_ [H7 [H8 [H9 _]]]]]]]]].
  split; [exact H1|]. split; [rewrite H4; reflexivity|].
  split; [exact H7|]. split; [exact H8 | exact H9].
Defined.

(** Counterexample to C4 as the specification words it: playback is
    stopped while Playing, the buffer is never played to its end, the host
    dispatches the [ended] event of the stopped node, and the completion
    callback has run. *)
Lemma stop_then_callback_fires :
  let w := run [ClickStop; HostEnded 0] playing_world in
  status playing_world = PLAYING
  /\ playbackFinished playing_world = false
  /\ In (EvNodeStop 0) (emitted playing_world w)
  /\ ~ In (EvNodeEnd 0) (trace w)
  /\ In (EvEnded 0) (emitted playing_world w)
  /\ playbackFinished w = true
  /\ logs w = logs playing_world ++ [js "Playback finished."].
Proof.
  cbv zeta. repeat split; try (vm_compute; reflexivity).
  - vm_compute. left. reflexivity.
  - vm_compute. intuition discriminate.
  - vm_compute. right. right. left. reflexivity.
Qed.

(** The world a click on a history entry leaves. *)
Lemma handleHistoryClick_world (item : HistoryItem) (w : World) :
  exists ns es,
    handleHistoryClick item w
    = (Ok tt,
       {| query := item_query item; status := IDLE;
          results := Some (item_results item);
          error := error w;
          logs := [js "Restored search results for: "
                   ++ quoted (item_query item)];
          playbackFinished := true;
          isLuckyLoading := isLuckyLoading w; history := history w;
          audioContextRef := audioContextRef w;
          currentSourceRef := None;
          nodes := ns;
          trace := trace w ++ es |})
    /\ calls es = []
    /\ forallb quiet es = true
    /\ (forall n, currentSourceRef w = Some n ->
          node_state_at n w = Some NodePlaying ->
          option_map node_state (nth_error ns n) = Some NodeEndedPending).
Proof.
  open_world w. unfold node_state_at. cbn [nodes].
  destruct c0 as [n|].
  - destruct (option_map node_state (nth_error n0 n)) as [st|] eqn:Hnode.
    + destruct st; destruct s0; run_handler; rewrite Hnode; run_handler;
        assoc_lists; do 2 eexists;
        (split; [reflexivity|]); (split; [reflexivity|]);
        (split; [reflexivity|]);
        intros m Hm Hp; injection Hm as <-; try congruence;
        rewrite nth_error_update_node;
        destruct (nth_error n0 n); try reflexivity; discriminate.
    + destruct s0; run_handler; rewrite Hnode; run_handler;
        assoc_lists; do 2 eexists;
        (split; [reflexivity|]); (split; [reflexivity|]);
        (split; [reflexivity|]);
        intros m Hm Hp; injection Hm as <-; congruence.
  - destruct s0; run_handler; assoc_lists; do 2 eexists;
      (split; [reflexivity|]); (split; [reflexivity|]);
      (split; [reflexivity|]); intros m Hm; discriminate Hm.
Qed.

(** C10. Selecting a history entry makes no remote call and starts no
    playback: it stops the playback in progress, if any, replaces the
    active SearchResponse and the query by those stored in the entry,
    replaces the log by the single restore line, forces the state to Idle
    and sets the playback-finished flag to true; the history and the
    error field are left as they were. *)
Theorem history_click_restores (item : HistoryItem) (w : World) :
  let w' := exec (handleHistoryClick item) w in
  results w' = Some (item_results item)
  /\ query w' = item_query item
  /\ logs w'
     = [js "Restored search results for: " ++ quoted (item_query item)]
  /\ status w' = IDLE
  /\ playbackFinished w' = true
  /\ currentSourceRef w' = None
  /\ (forall n, currentSourceRef w = Some n ->
        node_state_at n w = Some NodePlaying ->
        node_state_at n w' = Some NodeEndedPending)
  /\ calls (emitted w w') = []
  /\ forallb quiet (emitted w w') = true
  /\ history w' = history w
  /\ error w' = error w.
Proof.
  intros w'. subst w'. unfold exec.
  destruct (handleHistoryClick_world item w)
    as [ns [es [E [Hc [Hq Hn]]]]].
  rewrite E. cbn [snd].
  rewrite (@emitted_app w _ es) by reflexivity.
  repeat split; try reflexivity; try assumption.
Qed.


Lemma history_click_restores_witness :
  let w' := exec (handleHistoryClick sample_item) playing_world in
  node_state_at 0 playing_world = Some NodePlaying
  /\ node_state_at 0 w' = Some NodeEndedPending
  /\ results w' = Some (item_results sample_item)
  /\ status w' = IDLE
  /\ playbackFinished w' = true.
Proof.
  destruct (history_click_restores sample_item playing_world)
    as [H1 [_ [_ [H4 [H5 [_ [H7 _]]]]]]].
  split; [reflexivity|]. split; [exact (H7 0 eq_refl eq_refl)|].
  split; [exact H1|]. split; [exact H4 | exact H5].
Defined.

(** *** The bound on the history *)

Lemma preserves_ret (A : Type) (a : A) : preserves (ret a).
Proof. intros w H. exact H. Qed.

Lemma preserves_throw (A : Type) (e : Err) : preserves (@throw A e).
Proof. intros w H. exact H. Qed.

Lemma preserves_get : preserves get.
Proof. intros w H. exact H. Qed.

Lemma preserves_bind (A B : Type) (m : M A) (k : A -> M B) :
  preserves m -> (forall a, preserves (k a)) -> preserves (bind m k).
Proof.
  intros Hm Hk w H. unfold bind. specialize (Hm w H).
  destruct (m w) as [[a|e] w1]; cbn [snd] in *; [now apply Hk | exact Hm].
Qed.

Lemma preserves_try (A : Type) (body : M A) (handler : Err -> M A) :
  preserves body -> (forall e, preserves (handler e)) ->
  preserves (try_catch body handler).
Proof.
  intros Hm Hk w H. unfold try_catch. specialize (Hm w H).
  destruct (body w) as [[a|e] w1]; cbn [snd] in *; [exact Hm | now apply Hk].
Qed.

(** A write that leaves the history alone. *)
Lemma preserves_frame (f : World -> World) :
  (forall w, history (f w) = history w) -> preserves (modify f).
Proof. intros Hf w H. unfold bounded, modify. cbn [snd]. now rewrite Hf. Qed.

Lemma push_history_length (item : HistoryItem) (prev : list HistoryItem) :
  length (push_history item prev) <= 20.
Proof.
  unfold push_history. cbn [length]. rewrite length_firstn. lia.
Qed.

Lemma preserves_push (item : HistoryItem) :
  preserves (setHistory (push_history item)).
Proof. intros w _. apply push_history_length. Qed.

Lemma preserves_stopSource (n : nat) : preserves (stopSource n).
Proof.
  apply preserves_frame. intros w.
  destruct (node_state_at n w) as [[]|]; reflexivity.
Qed.

Lemma preserves_ensureAudioContext : preserves ensureAudioContext.
Proof.
  apply preserves_frame. intros w. destruct (audioContextRef w); reflexivity.
Qed.

Lemma preserves_createBufferSource (buf : AudioBuffer) :
  preserves (createBufferSource buf).
Proof. intros w H. exact H. Qed.

Ltac preserved_step :=
  lazymatch goal with
  | |- preserves (bind _ _) => apply preserves_bind; [|intros ?]
  | |- preserves (try_catch _ _) => apply preserves_try; [|intros ?]
  | |- preserves (ret _) => apply preserves_ret
  | |- preserves skip => apply preserves_ret
  | |- preserves (throw _) => apply preserves_throw
  | |- preserves get => apply preserves_get
  | |- preserves (setHistory (push_history _)) => apply preserves_push
  | |- preserves (stopSource _) => apply preserves_stopSource
  | |- preserves ensureAudioContext => apply preserves_ensureAudioContext
  | |- preserves (createBufferSource _) =>
      apply preserves_createBufferSource
  | |- preserves (match ?x with _ => _ end) => destruct x
  | |- preserves _ => apply preserves_frame; intros ?; reflexivity
  end.

Ltac preserved := repeat preserved_step.

Lemma preserves_performSearchFlow (env : Env) (q : jsstring) :
  preserves (performSearchFlow env q).
Proof.
  unfold performSearchFlow, flow_body, flow_catch, searchAndSummarize,
    generateSpeech, decodeAudioData.
  preserved.
Qed.

Lemma preserves_stopAudio : preserves stopAudio.
Proof. unfold stopAudio. preserved. Qed.

Ltac preserved_handler :=
  repeat lazymatch goal with
    | |- preserves (performSearchFlow _ _) =>
        apply preserves_performSearchFlow
    | |- preserves stopAudio => apply preserves_stopAudio
    | |- _ => preserved_step
    end.

Lemma preserves_act (a : Action) : preserves (act a).
Proof.
  destruct a; cbn [act];
    unfold handleSearch, handleWorkshop, handleFeelingLucky, handleFindMore,
      handleGoBack, handleHistoryClick, replay, host_buffer_end,
      host_dispatch_ended, onended, tweakQuery, generateRandomPrompt,
      refineQuery;
    preserved_handler.
Qed.

Lemma run_bounded (acts : list Action) (w : World) :
  bounded w -> bounded (run acts w).
Proof.
  revert w. induction acts as [|a acts IH]; intros w H; [exact H|].
  cbn [run fold_left]. apply IH. now apply preserves_act.
Qed.

Lemma map_Some_inj (A : Type) (l1 l2 : list A) :
  map Some l1 = map Some l2 -> l1 = l2.
Proof.
  revert l2. induction l1 as [|x l1 IH]; intros [|y l2] H;
    try discriminate; [reflexivity|].
  cbn in H. injection H as -> H. f_equal. now apply IH.
Qed.

(** After the flows of [runs], the history is the 20 latest items, the
    latest first. *)
Lemma run_flows_history (runs : list (Env * jsstring)) :
  forall (items done : list HistoryItem) (w : World),
    history w = firstn 20 (rev done) ->
    map flow_item runs = map Some items ->
    history (run_flows runs w) = firstn 20 (rev (done ++ items)).
Proof.
  induction runs as [|[env q] runs IH]; intros items done w Hw Hit.
  - destruct items; [|discriminate]. now rewrite app_nil_r.
  - destruct items as [|it items]; [discriminate|].
    cbn [map] in Hit. injection Hit as Hr Hit.
    cbn [run_flows fold_left fst snd].
    change (fold_left _ runs ?v) with (run_flows runs v).
    replace (done ++ it :: items) with ((done ++ [it]) ++ items)
      by now rewrite <- app_assoc.
    apply IH; [|exact Hit].
    rewrite performSearchFlow_history.
    unfold flow_item in Hr. cbn [fst snd] in Hr.
    destruct (backend_search env q) as [e|reply]; [discriminate|].
    injection Hr as <-. unfold push_history.
    rewrite Hw, firstn_firstn, rev_app_distr. reflexivity.
Qed.

(** C7. The session store never holds more than 20 entries: that bound
    holds after every sequence of user and host actions from the initial
    state. From an empty store, after flows that each got their search
    answered, the store holds the 20 latest entries, the latest first;
    in particular after 21 such flows it holds exactly 20 entries, which
    are the entries 2 to 21 with entry 21 first, and entry 1, when it
    differs from the others, is no longer there. *)
Theorem history_bounded_most_recent_first :
  (forall acts, length (history (run acts initial)) <= 20)
  /\ (forall runs items w,
        history w = [] ->
        map flow_item runs = map Some items ->
        history (run_flows runs w) = firstn 20 (rev items))
  /\ (forall runs first rest w,
        history w = [] ->
        map flow_item runs = map Some (first :: rest) ->
        length rest = 20 ->
        history (run_flows runs w) = rev rest
        /\ length (history (run_flows runs w)) = 20
        /\ (~ In first rest -> ~ In first (history (run_flows runs w)))).
Proof.
  assert (B : forall runs items w,
            history w = [] ->
            map flow_item runs = map Some items ->
            history (run_flows runs w) = firstn 20 (rev items)).
  { intros runs items w Hw Hit.
    apply (run_flows_history runs items [] w); [now rewrite Hw | exact Hit]. }
  split; [|split; [exact B|]].
  - intros acts. apply (run_bounded acts). unfold bounded. cbn. lia.
  - intros runs first rest w Hw Hit Hlen.
    rewrite (B runs (first :: rest) w Hw Hit).
    assert (E : firstn 20 (rev (first :: rest)) = rev rest).
    { cbn [rev]. rewrite firstn_app, length_rev, Hlen, Nat.sub_diag.
      rewrite firstn_O, app_nil_r.
      rewrite <- Hlen, <- (length_rev rest). apply firstn_all. }
    rewrite E.
    split; [reflexivity|]. split; [now rewrite length_rev|].
    intros Hn Hin. apply Hn. now apply in_rev.
Qed.

Lemma history_bounded_most_recent_first_witness :
  history (run_flows twenty_one_runs initial) = rev (tl twenty_one_items)
  /\ length (history (run_flows twenty_one_runs initial)) = 20
  /\ map item_id (history (run_flows twenty_one_runs initial))
     = map N_to_js
         [21; 20; 19; 18; 17; 16; 15; 14; 13; 12; 11; 10; 9; 8; 7; 6; 5; 4;
          3; 2]%N.
Proof.
  destruct (proj2 (proj2 history_bounded_most_recent_first)
              twenty_one_runs
              (newItem_of (env_at 1) (js "paris")
                 (searchAndSummarize_result (js "paris") sample_reply))
              (tl twenty_one_items) initial eq_refl eq_refl eq_refl)
    as [H1 [H2 _]].
  split; [exact H1|]. split; [exact H2|]. rewrite H1. reflexivity.
Defined.

End Session.

(* ------------------------------------------------------------------ *)
(** ** More on the marker line *)
(* ------------------------------------------------------------------ *)

Module MarkerFacts.

Import Marker.

(** What a successful backtracking star consumed. *)
Lemma star_inv (A : Type) (cls : N -> bool)
    (k : jsstring -> jsstring -> option A) (s acc : jsstring) (r : A) :
  star cls k acc s = Some r ->
  exists pre post,
    s = pre ++ post /\ forallb cls pre = true
    /\ k (acc ++ pre) post = Some r.
Proof.
  revert acc. induction s as [|c s IH]; intros acc H; simpl in H.
  - exists [], []. rewrite !app_nil_r. auto.
  - destruct (cls c) eqn:Hc.
    + destruct (star cls k (acc ++ [c]) s) as [r'|] eqn:E.
      * injection H as ->. destruct (IH _ E) as [pre [post [-> [Hp Hk]]]].
        exists (c :: pre), post. rewrite <- app_assoc in Hk.
        simpl. rewrite Hc. auto.
      * exists [], (c :: s). rewrite !app_nil_r. auto.
    + exists [], (c :: s). rewrite !app_nil_r. auto.
Qed.

Lemma search_inv (A : Type) (m : jsstring -> option A) (s pre : jsstring)
    (a : A) :
  search m s = Some (pre, a) -> exists t, s = pre ++ t /\ m t = Some a.
Proof.
  revert pre. induction s as [|c s IH]; intros pre H; simpl in H.
  - destruct (m []) eqn:E; [|discriminate]. injection H as <- <-.
    now exists [].
  - destruct (m (c :: s)) eqn:E.
    + injection H as <- <-. now exists (c :: s).
    + destruct (search m s) as [[p a']|] eqn:E'; [|discriminate].
      injection H as <- <-. destruct (IH _ eq_refl) as [t [-> Ht]].
      now exists t.
Qed.

Lemma dropWhile_suffix (p : N -> bool) (s : jsstring) :
  exists pre, s = pre ++ dropWhile p s /\ forallb p pre = true.
Proof.
  induction s as [|c s [pre [E H]]]; simpl.
  - now exists [].
  - destruct (p c) eqn:Hc.
    + exists (c :: pre). simpl. rewrite Hc. split; [now f_equal | exact H].
    + now exists [].
Qed.

Lemma dropWhile_head (p : N -> bool) (s r : jsstring) (x : N) :
  dropWhile p s = x :: r -> p x = false.
Proof.
  induction s as [|c s IH]; simpl; [discriminate|].
  destruct (p c) eqn:Hc; [exact IH|]. intros H. injection H as -> _.
  exact Hc.
Qed.

Lemma dropWhile_app_all (p : N -> bool) (a b : jsstring) :
  forallb p a = true -> dropWhile p (a ++ b) = dropWhile p b.
Proof.
  induction a as [|c a IH]; simpl; [reflexivity|].
  intros H. apply andb_true_iff in H. destruct H as [-> H]. now apply IH.
Qed.

Lemma forallb_dropWhile (p q : N -> bool) (s : jsstring) :
  forallb p s = true -> forallb p (dropWhile q s) = true.
Proof.
  intros H. destruct (dropWhile_suffix q s) as [pre [E _]].
  rewrite E, forallb_app in H. apply andb_true_iff in H. tauto.
Qed.

Lemma forallb_rev (p : N -> bool) (s : jsstring) :
  forallb p (rev s) = forallb p s.
Proof.
  induction s as [|c s IH]; simpl; [reflexivity|].
  rewrite forallb_app, IH. simpl. rewrite andb_true_r. apply andb_comm.
Qed.

Lemma forallb_trim (p : N -> bool) (s : jsstring) :
  forallb p s = true -> forallb p (trim s) = true.
Proof.
  intros H. unfold trim. rewrite forallb_rev.
  apply forallb_dropWhile. rewrite forallb_rev.
  now apply forallb_dropWhile.
Qed.

Lemma forallb_takeWhile (p : N -> bool) (s : jsstring) :
  forallb p (takeWhile p s) = true.
Proof.
  induction s as [|c s IH]; simpl; [reflexivity|].
  destruct (p c) eqn:Hc; simpl; [now rewrite Hc | reflexivity].
Qed.

Lemma dropWhile_fixed (p : N -> bool) (s : jsstring) :
  match s with [] => True | x :: _ => p x = false end ->
  dropWhile p s = s.
Proof. destruct s as [|x s]; simpl; [reflexivity|]. now intros ->. Qed.

(** [trim] leaves a trimmed string alone. *)
Lemma trim_idempotent (s : jsstring) : trim (trim s) = trim s.
Proof.
  unfold trim.
  set (t := dropWhile is_space s).
  set (u := dropWhile is_space (rev t)).
  assert (Hu : dropWhile is_space u = u) by apply dropWhile_idem.
  assert (Hr : dropWhile is_space (rev u) = rev u).
  { apply dropWhile_fixed.
    destruct (rev u) as [|x r] eqn:Er; [exact I|].
    destruct (dropWhile_suffix is_space (rev t)) as [pre [E _]].
    fold u in E. apply (f_equal (@rev N)) in E.
    rewrite rev_involutive, rev_app_distr, Er in E. cbn [app] in E.
    unfold t in E. now apply dropWhile_head in E. }
  now rewrite Hr, rev_involutive, Hu.
Qed.

(** The text is all white space exactly when its trimmed form is the
    empty, falsy, string. *)
Lemma trim_blank (s : jsstring) :
  truthy (trim s) = false <-> forallb is_space s = true.
Proof.
  unfold trim. split.
  - intros H.
    destruct (rev (dropWhile is_space (rev (dropWhile is_space s))))
      as [|x r] eqn:E; [|discriminate].
    apply (f_equal (@rev N)) in E. rewrite rev_involutive in E. cbn in E.
    destruct (dropWhile_suffix is_space (rev (dropWhile is_space s)))
      as [pre [E1 H1]].
    rewrite E, app_nil_r in E1.
    destruct (dropWhile_suffix is_space s) as [pre2 [E2 H2]].
    rewrite E2, forallb_app, H2. cbn [andb].
    rewrite <- forallb_rev, E1. exact H1.
  - intros H.
    assert (E : dropWhile is_space s = []).
    { clear -H. induction s as [|c s IH]; simpl in *; [reflexivity|].
      apply andb_true_iff in H. destruct H as [-> H]. now apply IH. }
    rewrite E. reflexivity.
Qed.

Lemma first_marker_split (s : jsstring) (n : nat) :
  first_marker s = Some n ->
  exists pre t, s = pre ++ t /\ length pre = n /\ marker_at t = true.
Proof.
  revert n. induction s as [|c s IH]; intros n H.
  - vm_compute in H. discriminate H.
  - cbn [first_marker] in H. destruct (marker_at (c :: s)) eqn:E.
    + injection H as <-. now exists [], (c :: s).
    + destruct (first_marker s) as [i|]; [|discriminate].
      injection H as <-.
      destruct (IH i eq_refl) as [pre [t [-> [Hl Ht]]]].
      exists (c :: pre), t. simpl. auto.
Qed.

Lemma marker_at_lit (t : jsstring) :
  marker_at t = true -> exists r, lit_ci MARK t = Some r.
Proof.
  unfold marker_at. destruct (lit_ci MARK t) as [r|]; [|discriminate].
  now exists r.
Qed.

(** Where the expression of line 47 matches, it matches up to the end
    of the text, at an occurrence of the marker followed by white space
    and one line. *)
Lemma re_strip_at_inv (t r : jsstring) :
  re_strip_at t = Some r ->
  r = [] /\ marker_at t = true
  /\ exists rest, lit_ci MARK t = Some rest
       /\ forallb is_dot (dropWhile is_space rest) = true.
Proof.
  unfold re_strip_at, marker_at.
  destruct (lit_ci MARK t) as [rest|]; [|discriminate].
  intros H. apply star_inv in H. destruct H as [ws [post [-> [Hws H]]]].
  apply star_inv in H. destruct H as [ds [post2 [-> [Hds H]]]].
  destruct post2; [|discriminate]. injection H as <-.
  split; [reflexivity|]. split; [reflexivity|].
  exists (ws ++ ds ++ []). split; [reflexivity|].
  rewrite app_nil_r, (dropWhile_app_all _ _ _ Hws).
  now apply forallb_dropWhile.
Qed.

(** X1. Whatever follows it, the first occurrence of the marker decides
    [actualQuery]: it is the text after that occurrence with the white
    space skipped, cut at the first line terminator, and trimmed. *)
Theorem actualQuery_from_first_marker (query fullText pre m rest : jsstring) :
  fullText = pre ++ m ++ rest ->
  lit_ci MARK m = Some [] ->
  first_marker fullText = Some (length pre) ->
  snd (parse_text query fullText)
  = trim (takeWhile is_dot (dropWhile is_space rest)).
Proof.
  intros -> Hm Hfirst.
  pose proof (lit_ci_app _ _ rest Hm) as Hlit. cbn [app] in Hlit.
  unfold parse_text, match_group1.
  now rewrite (search_first re_query_at pre (m ++ rest)
                 re_query_at_none Hfirst (re_query_at_marker _ Hlit)).
Qed.

Lemma actualQuery_from_first_marker_witness :
  snd (parse_text (js "paris")
         (js "Intro. Query_Used:  first line " ++ [10%N]
          ++ js "second line. QUERY_USED: other"))
  = js "first line".
Proof.
  apply (@actualQuery_from_first_marker (js "paris") _
           (js "Intro. ") (js "Query_Used:")
           (js "  first line " ++ [10%N]
            ++ js "second line. QUERY_USED: other"));
    reflexivity.
Defined.

(** X2. When the text holds the marker, [actualQuery] is a single line
    without white space around it: it contains no line terminator and
    trimming it again changes nothing. *)
Theorem actualQuery_single_trimmed_line (query fullText : jsstring) :
  first_marker fullText <> None ->
  let a := snd (parse_text query fullText) in
  forallb is_dot a = true /\ trim a = a.
Proof.
  intros H. destruct (first_marker fullText) as [n|] eqn:Hn; [|congruence].
  destruct (first_marker_split _ Hn) as [pre [t [-> [Hl Ht]]]].
  destruct (marker_at_lit _ Ht) as [r Hr].
  subst n. unfold parse_text, match_group1.
  rewrite (search_first re_query_at pre t
             re_query_at_none Hn (re_query_at_marker _ Hr)).
  cbn [snd]. split.
  - apply forallb_trim, forallb_takeWhile.
  - apply trim_idempotent.
Qed.

Lemma actualQuery_single_trimmed_line_witness :
  let a := snd (parse_text (js "paris")
                  (js "Old. QUERY_USED:  Paris history " ++ [10%N]
                   ++ js "More text.")) in
  a = js "Paris history" /\ forallb is_dot a = true /\ trim a = a.
Proof.
  split; [reflexivity|].
  apply (@actualQuery_single_trimmed_line (js "paris")
           (js "Old. QUERY_USED:  Paris history " ++ [10%N]
            ++ js "More text.")).
  vm_compute. discriminate.
Defined.

(** X3. The summary is the text as it is when the marker is absent;
    otherwise it is a trimmed prefix of the text, and what is cut off is
    either nothing or a tail that starts at an occurrence of the marker
    and runs to the end of the text. *)
Theorem summary_is_trimmed_prefix (query fullText : jsstring) :
  let summary := fst (parse_text query fullText) in
  (first_marker fullText = None /\ summary = fullText)
  \/ (first_marker fullText <> None
      /\ exists pre tail,
           fullText = pre ++ tail /\ summary = trim pre
           /\ (tail = [] \/ marker_at tail = true)).
Proof.
  cbv zeta. destruct (first_marker fullText) as [n|] eqn:Hn.
  - right. split; [discriminate|].
    destruct (first_marker_split _ Hn) as [pre [t [E [Hl Ht]]]].
    destruct (marker_at_lit _ Ht) as [r Hr]. subst n.
    unfold parse_text, match_group1. rewrite E in Hn |- *.
    rewrite (search_first re_query_at pre t
               re_query_at_none Hn (re_query_at_marker _ Hr)).
    cbn [fst]. unfold replace_empty.
    destruct (search re_strip_at (pre ++ t)) as [[p r']|] eqn:Es.
    + destruct (search_inv _ _ Es) as [t' [E' Ht']].
      destruct (re_strip_at_inv _ Ht') as [-> [Hm _]].
      exists p, t'. rewrite app_nil_r. auto.
    + exists (pre ++ t), []. rewrite app_nil_r. auto.
  - left. split; [reflexivity|]. unfold parse_text, match_group1.
    now rewrite (search_none re_query_at fullText re_query_at_none Hn).
Qed.

Lemma search_skip (A : Type) (m : jsstring -> option A) (pre t : jsstring) :
  (forall t, marker_at t = false -> m t = None) ->
  first_marker (pre ++ t) = Some (length pre) ->
  search m (pre ++ t)
  = match search m t with
    | Some (p, a) => Some (pre ++ p, a)
    | None => None
    end.
Proof.
  intros Hm. induction pre as [|c pre IH]; intros H.
  - simpl. now destruct (search m t) as [[p a]|].
  - cbn [app length] in *. simpl in H.
    destruct (marker_at (c :: pre ++ t)) eqn:E; [discriminate|].
    destruct (first_marker (pre ++ t)) as [i|] eqn:F; [|discriminate].
    simpl in H. injection H as H. subst i.
    simpl. rewrite (Hm _ E), (IH eq_refl).
    now destruct (search m t) as [[p a]|].
Qed.

(** X4. When the only occurrence of the marker is followed by text that
    runs over a line terminator (a final newline is enough), nothing is
    stripped: the summary is the whole text, trimmed, marker included,
    while [actualQuery] is still taken from the marker: it is the text
    after it with the white space skipped, cut at the first line
    terminator, and trimmed, not the query that was asked. *)
Theorem marker_kept_when_not_last_line (query fullText pre m rest : jsstring) :
  fullText = pre ++ m ++ rest ->
  lit_ci MARK m = Some [] ->
  first_marker fullText = Some (length pre) ->
  first_marker (tl (m ++ rest)) = None ->
  forallb is_dot (dropWhile is_space rest) = false ->
  fst (parse_text query fullText) = trim fullText
  /\ snd (parse_text query fullText)
     = trim (takeWhile is_dot (dropWhile is_space rest)).
Proof.
  intros -> Hm Hfirst Hlater Hline.
  pose proof (lit_ci_app _ _ rest Hm) as Hlit. cbn [app] in Hlit.
  unfold parse_text, match_group1.
  rewrite (search_first re_query_at pre (m ++ rest)
             re_query_at_none Hfirst (re_query_at_marker _ Hlit)).
  cbn [fst snd]. split; [|reflexivity]. unfold replace_empty.
  rewrite (search_skip re_strip_at pre (m ++ rest) re_strip_at_none Hfirst).
  assert (Hat : re_strip_at (m ++ rest) = None).
  { destruct (re_strip_at (m ++ rest)) as [r|] eqn:E; [|reflexivity].
    destruct (re_strip_at_inv _ E) as [_ [_ [rest' [Hl Hd]]]].
    rewrite Hlit in Hl. injection Hl as <-. congruence. }
  destruct (m ++ rest) as [|c t] eqn:Et.
  - cbn in Hlit. discriminate.
  - cbn [tl] in Hlater. cbn [search]. rewrite Hat.
    now rewrite (search_none re_strip_at t re_strip_at_none Hlater).
Qed.

Lemma marker_kept_when_not_last_line_witness :
  parse_text (js "paris")
    (js "Old. QUERY_USED: Paris history" ++ [10%N])
  = (js "Old. QUERY_USED: Paris history", js "Paris history").
Proof.
  destruct (@marker_kept_when_not_last_line (js "paris")
              (js "Old. QUERY_USED: Paris history" ++ [10%N])
              (js "Old. ") (js "QUERY_USED:")
              (js " Paris history" ++ [10%N])
              eq_refl eq_refl eq_refl eq_refl eq_refl) as [Hs Ha].
  rewrite (surjective_pairing (parse_text _ _)), Hs, Ha.
  reflexivity.
Defined.

End MarkerFacts.

(* ------------------------------------------------------------------ *)
(** ** More on the citations *)
(* ------------------------------------------------------------------ *)

Module CitationFacts.

Import Citations.

Lemma keep_first_incl (seen : list jsstring) (l : list SearchResult)
    (x : SearchResult) :
  In x (keep_first seen l) -> In x l.
Proof.
  revert seen. induction l as [|y l IH]; intros seen; simpl; [tauto|].
  destruct (existsb (jsstring_eqb (uri y)) seen).
  - intros H. right. exact (IH _ H).
  - intros [H|H]; [now left | right; exact (IH _ H)].
Qed.

Lemma or_else_truthy (a : option jsstring) (b : jsstring) :
  b <> [] -> or_else a b <> [].
Proof.
  intros Hb. unfold or_else. destruct a as [[|c s]|]; cbn; congruence.
Qed.

Lemma collect_incl (chunks : list Chunk) (s : SearchResult) :
  In s (collect chunks) ->
  exists c w,
    In c chunks /\ web c = Some w /\ web_uri w = Some (uri s)
    /\ uri s <> [] /\ title s = or_else (web_title w) (js "Source").
Proof.
  induction chunks as [|c chunks IH]; simpl; [tauto|].
  assert (Hrest : In s (collect chunks) ->
            exists c0 w, (c = c0 \/ In c0 chunks) /\ web c0 = Some w
              /\ web_uri w = Some (uri s) /\ uri s <> []
              /\ title s = or_else (web_title w) (js "Source")).
  { intros H. destruct (IH H) as [c0 [w [Hin Hr]]]. exists c0, w. tauto. }
  destruct (web c) as [w|] eqn:Hw; [|exact Hrest].
  destruct (web_uri w) as [u|] eqn:Hu; [|exact Hrest].
  destruct u as [|u0 u'] eqn:Eu; cbn [truthy]; [exact Hrest|].
  intros [H|H]; [|exact (Hrest H)].
  subst s. cbn [uri title]. exists c, w.
  repeat split; try assumption; try reflexivity; [now left | discriminate].
Qed.

Lemma keep_first_fixed (seen : list jsstring) (l : list SearchResult) :
  NoDup (map uri l) ->
  (forall u, In u (map uri l) -> ~ In u seen) ->
  keep_first seen l = l.
Proof.
  revert seen. induction l as [|x l IH]; intros seen Hnd Hdis;
    [reflexivity|].
  cbn [keep_first]. cbn [map] in Hnd, Hdis. inversion Hnd as [|? ? Hx Hl].
  subst.
  destruct (existsb (jsstring_eqb (uri x)) seen) eqn:E.
  - apply seen_In in E. exfalso. apply (Hdis (uri x)); [now left | exact E].
  - f_equal. apply IH; [exact Hl|].
    intros u Hu [H|H]; [subst u; contradiction|].
    apply (Hdis u); [now right | exact H].
Qed.

Lemma keep_first_length (seen : list jsstring) (l : list SearchResult) :
  length (keep_first seen l) <= length l.
Proof.
  revert seen. induction l as [|x l IH]; intros seen; simpl; [lia|].
  destruct (existsb (jsstring_eqb (uri x)) seen); simpl.
  - specialize (IH seen). lia.
  - specialize (IH (uri x :: seen)). lia.
Qed.

(** X5. Every source of a response comes from a grounding chunk with a
    web part, has that chunk's non-empty URI, and has a non-empty title:
    the title of the chunk, or the word Source when the chunk has no
    title or an empty one. Without grounding chunks there is no
    source. *)
Theorem sources_well_formed (query : jsstring) (r : SearchReply) :
  (forall s,
     In s (sources (searchAndSummarize_result query r)) ->
     uri s <> [] /\ title s <> []
     /\ exists chunks c w,
          groundingChunks r = Some chunks /\ In c chunks
          /\ web c = Some w /\ web_uri w = Some (uri s)
          /\ title s = or_else (web_title w) (js "Source"))
  /\ (groundingChunks r = None ->
      sources (searchAndSummarize_result query r) = []).
Proof.
  assert (E : sources (searchAndSummarize_result query r)
              = sources_of (groundingChunks r)).
  { unfold searchAndSummarize_result. now destruct (parse_text query _). }
  rewrite E. split.
  - intros s Hs. destruct (groundingChunks r) as [chunks|]; [|destruct Hs].
    cbn [sources_of] in Hs. rewrite uniqueSources_keep_first in Hs.
    apply keep_first_incl in Hs.
    destruct (collect_incl _ _ Hs) as [c [w [Hc [Hw [Hu [Hne Ht]]]]]].
    split; [exact Hne|]. split.
    + rewrite Ht. apply or_else_truthy. discriminate.
    + exists chunks, c, w. auto.
  - intros ->. reflexivity.
Qed.

Lemma sources_well_formed_witness :
  let s := {| title := js "Source"; uri := js "a" |} in
  In s (sources (searchAndSummarize_result (js "paris") sample_reply))
  /\ uri s <> [] /\ title s <> [].
Proof.
  assert (Hin : In {| title := js "Source"; uri := js "a" |}
                  (sources (searchAndSummarize_result (js "paris")
                              sample_reply))).
  { vm_compute. left. reflexivity. }
  destruct (proj1 (sources_well_formed (js "paris") sample_reply) _ Hin)
    as [H1 [H2 _]].
  cbv zeta. auto.
Defined.

(** X6. Deduplicating is idempotent, never lengthens the list, and
    leaves a list without repeated URIs as it is. *)
Theorem uniqueSources_idempotent (a : list SearchResult) :
  uniqueSources (uniqueSources a) = uniqueSources a
  /\ length (uniqueSources a) <= length a
  /\ (NoDup (map uri a) -> uniqueSources a = a).
Proof.
  rewrite !uniqueSources_keep_first.
  split; [|split].
  - apply keep_first_fixed; [apply keep_first_NoDup | intros u _ []].
  - apply keep_first_length.
  - intros H. apply keep_first_fixed; [exact H | intros u _ []].
Qed.

Lemma uniqueSources_idempotent_witness :
  uniqueSources
    [{| title := js "A"; uri := js "a" |};
     {| title := js "B"; uri := js "b" |}]
  = [{| title := js "A"; uri := js "a" |};
     {| title := js "B"; uri := js "b" |}].
Proof.
  apply (proj2 (proj2 (uniqueSources_idempotent _))).
  repeat constructor; cbn; intuition discriminate.
Defined.

End CitationFacts.

(* ------------------------------------------------------------------ *)
(** ** The ways the core flow ends *)
(* ------------------------------------------------------------------ *)

Module FlowFacts.

Import Flow.

Lemma flow_search_fails (env : Env) (q : jsstring) (w : World) (e : Err) :
  backend_search env q = inl e ->
  performSearchFlow env q w
  = (Ok tt,
     {| query := query w; status := ERROR; results := results w;
        error := Some (or_else (message e)
                         (js "Search failed. Please try again."));
        logs := logs w ++
          [ js "Analyzing request: " ++ quoted q;
            js "Consulting Google Search for real-time information...";
            js "Error: " ++ message_text e ];
        playbackFinished := false;
        isLuckyLoading := isLuckyLoading w;
        history := history w;
        audioContextRef := audioContextRef w;
        currentSourceRef := currentSourceRef w;
        nodes := nodes w;
        trace := trace w ++
          [ EvStatus ANALYZING;
            EvLog (js "Analyzing request: " ++ quoted q);
            EvStatus SEARCHING;
            EvLog (js "Consulting Google Search for real-time information...");
            EvCall (CallSearch q);
            EvStatus ERROR;
            EvLog (js "Error: " ++ message_text e) ] |}).
Proof.
  intros Hs. open_world w. run_handler. rewrite Hs. run_handler.
  assoc_lists. reflexivity.
Qed.

Lemma flow_speech_fails (env : Env) (q : jsstring) (w : World)
    (r : SearchReply) (e : Err) :
  let res := searchAndSummarize_result q r in
  backend_search env q = inr r ->
  speech_error env (summary res) = Some e ->
  performSearchFlow env q w
  = (Ok tt,
     {| query := query w; status := ERROR; results := Some res;
        error := Some (or_else (message e)
                         (js "Search failed. Please try again."));
        logs := logs w ++
          [ js "Analyzing request: " ++ quoted q;
            js "Consulting Google Search for real-time information...";
            js "Found " ++ nat_to_js (length (sources res))
              ++ js " relevant sources.";
            js "Model used search term: " ++ quoted (actualQuery res);
            js "Synthesizing search results into concise summary...";
            js "Converting summary to speech using Gemini TTS...";
            js "Error: " ++ message_text e ];
        playbackFinished := false;
        isLuckyLoading := isLuckyLoading w;
        history := push_history (newItem_of env q res) (history w);
        audioContextRef := audioContextRef w;
        currentSourceRef := currentSourceRef w;
        nodes := nodes w;
        trace := trace w ++
          [ EvStatus ANALYZING;
            EvLog (js "Analyzing request: " ++ quoted q);
            EvStatus SEARCHING;
            EvLog (js "Consulting Google Search for real-time information...");
            EvCall (CallSearch q);
            EvLog (js "Found " ++ nat_to_js (length (sources res))
                   ++ js " relevant sources.");
            EvLog (js "Model used search term: " ++ quoted (actualQuery res));
            EvStatus SYNTHESIZING;
            EvLog (js "Synthesizing search results into concise summary...");
            EvStatus GENERATING_AUDIO;
            EvLog (js "Converting summary to speech using Gemini TTS...");
            EvCall (CallSpeech (summary res));
            EvStatus ERROR;
            EvLog (js "Error: " ++ message_text e) ] |}).
Proof.
  intros res Hs He. subst res. unfold speech_error in He. open_world w.
  run_handler. rewrite Hs. run_handler.
  destruct (backend_speech env (summary (searchAndSummarize_result q r)))
    as [e2|[d|]].
  - injection He as <-. run_handler. assoc_lists. reflexivity.
  - run_handler. destruct (truthy d); [discriminate|].
    injection He as <-. run_handler. assoc_lists. reflexivity.
  - injection He as <-. run_handler. assoc_lists. reflexivity.
Qed.

Lemma flow_decode_fails (env : Env) (q : jsstring) (w : World)
    (r : SearchReply) (d : jsstring) (e : Err) :
  let res := searchAndSummarize_result q r in
  backend_search env q = inr r ->
  backend_speech env (summary res) = inr (Some d) ->
  truthy d = true ->
  decode env d = inl e ->
  performSearchFlow env q w
  = (Ok tt,
     {| query := query w; status := ERROR; results := Some res;
        error := Some (or_else (message e)
                         (js "Search failed. Please try again."));
        logs := logs w ++
          [ js "Analyzing request: " ++ quoted q;
            js "Consulting Google Search for real-time information...";
            js "Found " ++ nat_to_js (length (sources res))
              ++ js " relevant sources.";
            js "Model used search term: " ++ quoted (actualQuery res);
            js "Synthesizing search results into concise summary...";
            js "Converting summary to speech using Gemini TTS...";
            js "Playing audio summary.";
            js "Error: " ++ message_text e ];
        playbackFinished := false;
        isLuckyLoading := isLuckyLoading w;
        history := push_history (newItem_of env q res) (history w);
        audioContextRef := true;
        currentSourceRef := currentSourceRef w;
        nodes := nodes w;
        trace := trace w ++
          [ EvStatus ANALYZING;
            EvLog (js "Analyzing request: " ++ quoted q);
            EvStatus SEARCHING;
            EvLog (js "Consulting Google Search for real-time information...");
            EvCall (CallSearch q);
            EvLog (js "Found " ++ nat_to_js (length (sources res))
                   ++ js " relevant sources.");
            EvLog (js "Model used search term: " ++ quoted (actualQuery res));
            EvStatus SYNTHESIZING;
            EvLog (js "Synthesizing search results into concise summary...");
            EvStatus GENERATING_AUDIO;
            EvLog (js "Converting summary to speech using Gemini TTS...");
            EvCall (CallSpeech (summary res));
            EvStatus PLAYING;
            EvLog (js "Playing audio summary.");
            EvStatus ERROR;
            EvLog (js "Error: " ++ message_text e) ] |}).
Proof.
  intros res Hs Ht Hd Hb. subst res. open_world w.
  destruct a0;
    run_handler; rewrite Hs; run_handler; rewrite Ht; run_handler;
    rewrite Hd; run_handler; rewrite Hb; run_handler;
    assoc_lists; reflexivity.
Qed.

(** The flow returns normally, whatever is replied. *)
Lemma flow_returns (env : Env) (q : jsstring) (w : World) :
  performSearchFlow env q w = (Ok tt, exec (performSearchFlow env q) w).
Proof.
  open_world w. destruct a0; run_handler; split_replies env q;
    run_handler; reflexivity.
Qed.

(** The events added to a trace that is given as an extension. *)
Ltac emitted_now :=
  unfold emitted; cbn [trace];
  rewrite skipn_app, skipn_all, Nat.sub_diag; cbn [skipn app].

Lemma last_append (A : Type) (l1 l2 : list A) (d : A) :
  l2 <> [] -> last (l1 ++ l2) d = last l2 d.
Proof.
  intros H. induction l1 as [|x l1 IH]; [reflexivity|].
  cbn [app]. destruct (l1 ++ l2) eqn:E.
  - apply app_eq_nil in E. tauto.
  - rewrite <- IH. reflexivity.
Qed.

(** X7. When the search request fails, the flow ends in Error with the
    message of the failure, after exactly one remote call, the search:
    no speech is requested. The active result, the history, the query
    and the audio state are as the flow found them, so a failed Replay
    keeps the previous result on display. *)
Theorem search_failure_outcome (env : Env) (q : jsstring) (w : World)
    (e : Err) :
  backend_search env q = inl e ->
  let w' := exec (performSearchFlow env q) w in
  status w' = ERROR
  /\ error w'
     = Some (or_else (message e) (js "Search failed. Please try again."))
  /\ calls (emitted w w') = [CallSearch q]
  /\ statuses (emitted w w') = [ANALYZING; SEARCHING; ERROR]
  /\ logs w' = logs w ++
       [ js "Analyzing request: " ++ quoted q;
         js "Consulting Google Search for real-time information...";
         js "Error: " ++ message_text e ]
  /\ results w' = results w
  /\ history w' = history w
  /\ query w' = query w
  /\ nodes w' = nodes w
  /\ currentSourceRef w' = currentSourceRef w
  /\ audioContextRef w' = audioContextRef w.
Proof.
  intros Hs w'. subst w'. unfold exec.
  rewrite (flow_search_fails env q w Hs). cbn [snd].
  emitted_now.
  repeat split; reflexivity.
Qed.

Lemma search_failure_outcome_witness :
  let env :=
    {| now := 5%N;
       backend_search := fun _ => inl {| message := Some (js "offline") |};
       backend_speech := fun _ => inr None;
       backend_tweak := fun _ => inr None;
       backend_random := inr None;
       backend_refine := fun _ _ => inr None;
       decode := fun _ => inr [] |} in
  let w' := exec (performSearchFlow env (js "paris")) idle_world in
  status w' = ERROR
  /\ error w' = Some (js "offline")
  /\ results w' = results idle_world.
Proof.
  cbv zeta.
  match goal with
  | |- context [performSearchFlow ?env _] =>
      destruct (@search_failure_outcome env (js "paris") idle_world
                  {| message := Some (js "offline") |} eq_refl)
        as [H1 [H2 [_ [_ [_ [H6 _]]]]]]
  end.
  split; [exact H1|]. split; [rewrite H2; reflexivity | exact H6].
Defined.

(** X8. When the speech request resolves without audio data (none, or
    the empty string), the flow ends in Error with the message
    [Audio generation failed.], which is also the last line of the log;
    the result of the search stays active, no audio context and no
    audio node is created, and the state never reaches Playing. *)
Theorem missing_audio_outcome (env : Env) (q : jsstring) (w : World)
    (r : SearchReply) :
  let res := searchAndSummarize_result q r in
  backend_search env q = inr r ->
  backend_speech env (summary res) = inr None
  \/ backend_speech env (summary res) = inr (Some []) ->
  let w' := exec (performSearchFlow env q) w in
  status w' = ERROR
  /\ error w' = Some (js "Audio generation failed.")
  /\ last (logs w') [] = js "Error: Audio generation failed."
  /\ results w' = Some res
  /\ statuses (emitted w w')
     = [ANALYZING; SEARCHING; SYNTHESIZING; GENERATING_AUDIO; ERROR]
  /\ calls (emitted w w') = [CallSearch q; CallSpeech (summary res)]
  /\ nodes w' = nodes w
  /\ currentSourceRef w' = currentSourceRef w
  /\ audioContextRef w' = audioContextRef w.
Proof.
  intros res Hs Ht w'. subst w'. unfold exec.
  assert (He : speech_error env (summary res)
               = Some {| message := Some (js "Audio generation failed.") |}).
  { unfold speech_error. destruct Ht as [-> | ->]; reflexivity. }
  rewrite (flow_speech_fails env q w Hs He). cbn [snd].
  emitted_now.
  cbn [status error logs results nodes currentSourceRef audioContextRef].
  rewrite last_append by discriminate.
  repeat split; reflexivity.
Qed.

Lemma missing_audio_outcome_witness :
  let env :=
    {| now := 5%N;
       backend_search := fun _ => inr sample_reply;
       backend_speech := fun _ => inr (Some []);
       backend_tweak := fun _ => inr None;
       backend_random := inr None;
       backend_refine := fun _ _ => inr None;
       decode := fun _ => inr [] |} in
  let w' := exec (performSearchFlow env (js "paris")) initial in
  status w' = ERROR
  /\ error w' = Some (js "Audio generation failed.")
  /\ nodes w' = [].
Proof.
  cbv zeta.
  match goal with
  | |- context [performSearchFlow ?env _] =>
      destruct (@missing_audio_outcome env (js "paris") initial
                  sample_reply eq_refl (or_intror eq_refl))
        as [H1 [H2 [_ [_ [_ [_ [H7 _]]]]]]]
  end.
  split; [exact H1|]. split; [exact H2 | exact H7].
Defined.

(** X9. When the audio data cannot be decoded, the state has already
    been set to Playing and the log already says that the audio is
    playing: the flow then ends in Error with no audio node created or
    started and the current source untouched, while the audio context,
    created before the decoding, exists. *)
Theorem decode_failure_outcome (env : Env) (q : jsstring) (w : World)
    (r : SearchReply) (d : jsstring) (e : Err) :
  let res := searchAndSummarize_result q r in
  backend_search env q = inr r ->
  backend_speech env (summary res) = inr (Some d) ->
  truthy d = true ->
  decode env d = inl e ->
  let w' := exec (performSearchFlow env q) w in
  status w' = ERROR
  /\ statuses (emitted w w')
     = [ANALYZING; SEARCHING; SYNTHESIZING; GENERATING_AUDIO; PLAYING;
        ERROR]
  /\ (exists before,
        logs w' = before ++ [js "Playing audio summary.";
                             js "Error: " ++ message_text e])
  /\ nodes w' = nodes w
  /\ currentSourceRef w' = currentSourceRef w
  /\ forallb (fun ev => match ev with EvNodeStart _ => false | _ => true end)
       (emitted w w') = true
  /\ audioContextRef w' = true
  /\ results w' = Some res.
Proof.
  intros res Hs Ht Hd Hb w'. subst w'. unfold exec.
  rewrite (flow_decode_fails env q w Hs Ht Hd Hb). cbn [snd].
  emitted_now.
  cbn [status logs results nodes currentSourceRef audioContextRef].
  repeat split; try reflexivity.
  eexists (logs w ++ [_; _; _; _; _; _]).
  rewrite <- app_assoc. reflexivity.
Qed.

Lemma decode_failure_outcome_witness :
  let env :=
    {| now := 5%N;
       backend_search := fun _ => inr sample_reply;
       backend_speech := fun _ => inr (Some (js "!!"));
       backend_tweak := fun _ => inr None;
       backend_random := inr None;
       backend_refine := fun _ _ => inr None;
       decode := fun _ => inl {| message := Some (js "bad base64") |} |} in
  let w' := exec (performSearchFlow env (js "paris")) initial in
  status w' = ERROR /\ nodes w' = [] /\ audioContextRef w' = true.
Proof.
  cbv zeta.
  match goal with
  | |- context [performSearchFlow ?env _] =>
      destruct (@decode_failure_outcome env (js "paris") initial
                  sample_reply (js "!!")
                  {| message := Some (js "bad base64") |}
                  eq_refl eq_refl eq_refl eq_refl)
        as [H1 [_ [_ [H4 [_ [_ [H7 _]]]]]]]
  end.
  split; [exact H1|]. split; [exact H4 | exact H7].
Defined.

(** X10. A thrown value without a [message] is shown with the default
    text [Search failed. Please try again.] while the log line reads
    [Error: undefined]; with an empty message the error field has the
    default text as well and the log line is [Error: ] alone. *)
Theorem error_without_message (env : Env) (q : jsstring) (w : World)
    (e : Err) :
  backend_search env q = inl e ->
  let w' := exec (performSearchFlow env q) w in
  (message e = None ->
   error w' = Some (js "Search failed. Please try again.")
   /\ last (logs w') [] = js "Error: undefined")
  /\ (message e = Some [] ->
      error w' = Some (js "Search failed. Please try again.")
      /\ last (logs w') [] = js "Error: ").
Proof.
  intros Hs w'. subst w'. unfold exec.
  rewrite (flow_search_fails env q w Hs). cbn [snd error logs].
  rewrite last_append by discriminate. cbn [last]. unfold message_text.
  split; intros ->; split; reflexivity.
Qed.

Lemma error_without_message_witness :
  let env :=
    {| now := 5%N;
       backend_search := fun _ => inl {| message := None |};
       backend_speech := fun _ => inr None;
       backend_tweak := fun _ => inr None;
       backend_random := inr None;
       backend_refine := fun _ _ => inr None;
       decode := fun _ => inr [] |} in
  let w' := exec (performSearchFlow env (js "paris")) initial in
  error w' = Some (js "Search failed. Please try again.")
  /\ last (logs w') [] = js "Error: undefined".
Proof.
  cbv zeta.
  match goal with
  | |- context [performSearchFlow ?env _] =>
      exact (proj1 (@error_without_message env (js "paris") initial
                      {| message := None |} eq_refl) eq_refl)
  end.
Defined.

Lemma or_else_nonempty (a : option jsstring) (b : jsstring) :
  b <> [] -> or_else a b <> [].
Proof.
  intros Hb. unfold or_else. destruct a as [[|c s]|]; cbn; congruence.
Qed.

(** X11. Every run of the core flow returns, leaves the query and the
    lucky flag alone, clears the playback-finished flag, and ends in one
    of two ways: in Playing with no error and with the current source a
    node that is playing, or in Error with a non-empty error message. *)
Theorem flow_ends_playing_or_error (env : Env) (q : jsstring) (w : World) :
  let w' := exec (performSearchFlow env q) w in
  performSearchFlow env q w = (Ok tt, w')
  /\ query w' = query w
  /\ isLuckyLoading w' = isLuckyLoading w
  /\ playbackFinished w' = false
  /\ ((status w' = PLAYING /\ error w' = None
       /\ exists n, currentSourceRef w' = Some n
                    /\ node_state_at n w' = Some NodePlaying)
      \/ (status w' = ERROR
          /\ exists m, error w' = Some m /\ m <> [])).
Proof.
  intros w'. split; [apply flow_returns|]. subst w'. unfold exec.
  assert (Hdef : js "Search failed. Please try again." <> [])
    by (vm_compute; discriminate).
  destruct (backend_search env q) as [e1|r] eqn:Hs.
  { rewrite (flow_search_fails env q w Hs). cbn.
    repeat split. right. split; [reflexivity|]. eexists. split;
      [reflexivity | now apply or_else_nonempty]. }
  destruct (speech_error env (summary (searchAndSummarize_result q r)))
    as [e2|] eqn:He.
  { rewrite (flow_speech_fails env q w Hs He). cbn.
    repeat split. right. split; [reflexivity|]. eexists. split;
      [reflexivity | now apply or_else_nonempty]. }
  unfold speech_error in He.
  destruct (backend_speech env (summary (searchAndSummarize_result q r)))
    as [e2|[d|]] eqn:Ht; try discriminate.
  destruct (truthy d) eqn:Hd; [|discriminate].
  destruct (decode env d) as [e3|buf] eqn:Hb.
  { rewrite (flow_decode_fails env q w Hs Ht Hd Hb). cbn.
    repeat split. right. split; [reflexivity|]. eexists. split;
      [reflexivity | now apply or_else_nonempty]. }
  rewrite (flow_success env q w Hs Ht Hd Hb). cbn.
  repeat split. left. split; [reflexivity|]. split; [reflexivity|].
  exists (length (nodes w)). split; [reflexivity|].
  unfold node_state_at. cbn [nodes].
  rewrite nth_error_app2, Nat.sub_diag by lia. reflexivity.
Qed.

(** X25. The core flow never stops audio: it leaves every existing
    node as it is and adds at most one node, which it starts, and it
    never calls [stop()]; silencing what is playing is left to its
    callers. In every run its first step is the state Analyzing and its
    first remote call is the search for the very query it was given,
    with no guard of its own on the state or on the query. *)
Theorem flow_never_stops_audio (env : Env) (q : jsstring) (w : World) :
  let w' := exec (performSearchFlow env q) w in
  (exists added, nodes w' = nodes w ++ added /\ length added <= 1)
  /\ forallb (fun e => match e with EvNodeStop _ => false | _ => true end)
       (emitted w w') = true
  /\ hd_error (emitted w w') = Some (EvStatus ANALYZING)
  /\ hd_error (calls (emitted w w')) = Some (CallSearch q).
Proof.
  cbv zeta. unfold exec.
  destruct (backend_search env q) as [e1|r] eqn:Hs.
  { rewrite (flow_search_fails env q w Hs). cbn [snd]. emitted_now.
    cbn [nodes]. split; [|repeat split].
    exists []. rewrite app_nil_r. split; [reflexivity | cbn; lia]. }
  destruct (speech_error env (summary (searchAndSummarize_result q r)))
    as [e2|] eqn:He.
  { rewrite (flow_speech_fails env q w Hs He). cbn [snd]. emitted_now.
    cbn [nodes]. split; [|repeat split].
    exists []. rewrite app_nil_r. split; [reflexivity | cbn; lia]. }
  unfold speech_error in He.
  destruct (backend_speech env (summary (searchAndSummarize_result q r)))
    as [e2|[d|]] eqn:Ht; try discriminate.
  destruct (truthy d) eqn:Hd; [|discriminate].
  destruct (decode env d) as [e3|buf] eqn:Hb.
  { rewrite (flow_decode_fails env q w Hs Ht Hd Hb). cbn [snd].
    emitted_now. cbn [nodes]. split; [|repeat split].
    exists []. rewrite app_nil_r. split; [reflexivity | cbn; lia]. }
  rewrite (flow_success env q w Hs Ht Hd Hb). cbn [snd]. emitted_now.
  cbn [nodes]. split; [|repeat split].
  eexists. split; [reflexivity | cbn; lia].
Qed.

Lemma calls_app (a b : list Event) : calls (a ++ b) = calls a ++ calls b.
Proof. apply flat_map_app. Qed.

Lemma log_writes_app (a b : list Event) :
  log_writes (a ++ b) = log_writes a ++ log_writes b.
Proof. apply flat_map_app. Qed.

Lemma statuses_app (a b : list Event) :
  statuses (a ++ b) = statuses a ++ statuses b.
Proof. apply flat_map_app. Qed.

(** What every run of the flow has in common. *)
Lemma flow_summary (env : Env) (q : jsstring) (w : World) :
  exists es,
    trace (exec (performSearchFlow env q) w) = trace w ++ es
    /\ forallb (fun e => negb (resets_log e)) es = true
    /\ logs (exec (performSearchFlow env q) w) = logs w ++ log_writes es
    /\ hd_error (calls es) = Some (CallSearch q)
    /\ (forall q', In (CallSearch q') (calls es) -> q' = q)
    /\ (status (exec (performSearchFlow env q) w) = PLAYING
        \/ status (exec (performSearchFlow env q) w) = ERROR)
    /\ query (exec (performSearchFlow env q) w) = query w
    /\ isLuckyLoading (exec (performSearchFlow env q) w)
       = isLuckyLoading w
    /\ results (exec (performSearchFlow env q) w)
       = match backend_search env q with
         | inl _ => results w
         | inr r => Some (searchAndSummarize_result q r)
         end
    /\ (audioContextRef w = true ->
        audioContextRef (exec (performSearchFlow env q) w) = true).
Proof.
  unfold exec.
  destruct (backend_search env q) as [e1|r] eqn:Hs.
  { rewrite (flow_search_fails env q w Hs). cbn [snd].
    eexists. split; [reflexivity|]. cbn.
    repeat split; auto. intros q' [H|[]]. now injection H. }
  destruct (speech_error env (summary (searchAndSummarize_result q r)))
    as [e2|] eqn:He.
  { rewrite (flow_speech_fails env q w Hs He). cbn [snd].
    eexists. split; [reflexivity|]. cbn.
    repeat split; auto. intros q' [H|[H|[]]]; [now injection H|].
    discriminate H. }
  unfold speech_error in He.
  destruct (backend_speech env (summary (searchAndSummarize_result q r)))
    as [e2|[d|]] eqn:Ht; try discriminate.
  destruct (truthy d) eqn:Hd; [|discriminate].
  destruct (decode env d) as [e3|buf] eqn:Hb.
  { rewrite (flow_decode_fails env q w Hs Ht Hd Hb). cbn [snd].
    eexists. split; [reflexivity|]. cbn.
    repeat split; auto. intros q' [H|[H|[]]]; [now injection H|].
    discriminate H. }
  rewrite (flow_success env q w Hs Ht Hd Hb). cbn [snd].
  eexists. split; [reflexivity|]. cbn.
  repeat split; auto. intros q' [H|[H|[]]]; [now injection H|].
  discriminate H.
Qed.

End FlowFacts.

(* ------------------------------------------------------------------ *)
(** ** The entry points around the core flow *)
(* ------------------------------------------------------------------ *)

Module EntryFacts.

Import Flow FlowFacts.

(** Symbolic execution of a handler that leaves the calls of the core
    flow and of [stopAudio] folded. *)
Ltac run_outer :=
  lazy beta iota zeta delta
    [tweakQuery generateRandomPrompt refineQuery onended replay
     handleSearch handleWorkshop handleFeelingLucky handleFindMore
     handleGoBack handleHistoryClick host_buffer_end host_dispatch_ended
     try_catch bind get skip ret throw modify exec fst snd
     status_eqb isSearching negb andb orb
     setStatus addLog setLogs setError setQuery setPlaybackFinished
     setIsLuckyLoading setResults setHistory remote
     setCurrentSource
     set_node_state node_state_at record_event with_query with_status
     with_results with_error with_logs with_playbackFinished
     with_isLuckyLoading with_history with_audioContextRef
     with_currentSourceRef with_nodes
     query status results error logs playbackFinished isLuckyLoading
     history audioContextRef currentSourceRef nodes trace].

(** What [stopAudio] does, in every world. *)
Lemma stopAudio_effect (w : World) :
  exists ns es,
    stopAudio w
    = (Ok tt,
       {| query := query w;
          status := if status_eqb (status w) PLAYING then IDLE
                    else status w;
          results := results w; error := error w; logs := logs w;
          playbackFinished := playbackFinished w;
          isLuckyLoading := isLuckyLoading w; history := history w;
          audioContextRef := audioContextRef w;
          currentSourceRef := None;
          nodes := ns;
          trace := trace w ++ es |})
    /\ calls es = [] /\ log_writes es = []
    /\ forallb (fun e => negb (resets_log e)) es = true
    /\ forallb quiet es = true
    /\ length ns = length (nodes w)
    /\ (forall n, currentSourceRef w = Some n ->
          node_state_at n w = Some NodePlaying ->
          option_map node_state (nth_error ns n) = Some NodeEndedPending)
    /\ (currentSourceRef w = None -> ns = nodes w).
Proof.
  open_world w. unfold node_state_at. cbn [nodes].
  assert (Hlen : forall n f, length (update_node n f n0) = length n0).
  { clear. intros n f. revert n. induction n0 as [|x l IH]; intros [|n];
      simpl; auto. }
  destruct c0 as [n|].
  - destruct (option_map node_state (nth_error n0 n)) as [st|] eqn:Hnode.
    + destruct st; destruct s0; run_handler; rewrite Hnode; run_handler;
        assoc_lists; do 2 eexists;
        (split; [reflexivity|]); (split; [reflexivity|]);
        (split; [reflexivity|]); (split; [reflexivity|]);
        (split; [reflexivity|]);
        (split; [try reflexivity; apply Hlen|]);
        (split; [|intros Hn; discriminate Hn]);
        intros m Hm Hp; injection Hm as <-; try congruence;
        rewrite Session.nth_error_update_node;
        destruct (nth_error n0 n); try reflexivity; discriminate.
    + destruct s0; run_handler; rewrite Hnode; run_handler;
        assoc_lists; do 2 eexists;
        (split; [reflexivity|]); (split; [reflexivity|]);
        (split; [reflexivity|]); (split; [reflexivity|]);
        (split; [reflexivity|]); (split; [reflexivity|]);
        (split; [|intros Hn; discriminate Hn]);
        intros m Hm Hp; injection Hm as <-; congruence.
  - destruct s0; run_handler; assoc_lists;
      first [ do 2 eexists; split; [reflexivity|]
            | exists n0, []; rewrite app_nil_r; split; [reflexivity|] ];
      (split; [reflexivity|]);
      (split; [reflexivity|]); (split; [reflexivity|]);
      (split; [reflexivity|]); (split; [reflexivity|]);
      (split; [intros m Hm; discriminate Hm | reflexivity]).
Qed.


Ltac use_stopAudio :=
  match goal with
  | |- context [stopAudio ?W] =>
      let ns := fresh "ns" in
      let es := fresh "es" in
      let E := fresh "Estop" in
      let Hc := fresh "Hcalls" in
      let Hl := fresh "Hlogw" in
      let Hr := fresh "Hnoreset" in
      let Hq := fresh "Hquiet" in
      destruct (stopAudio_effect W)
        as [ns [es [E [Hc [Hl [Hr [Hq _]]]]]]];
      rewrite E; clear E
  end.

Ltac project :=
  cbn [query status results error logs playbackFinished isLuckyLoading
       history audioContextRef currentSourceRef nodes trace].

(** The calls, log lines and states of an explicit list of events. *)
Ltac events_now :=
  unfold calls, log_writes, statuses in *;
  cbn [flat_map app]; rewrite ?flat_map_app; cbn [flat_map app];
  repeat match goal with
         | H : flat_map _ _ = _ |- _ => rewrite H
         end;
  cbn [app].

Ltac use_flow_returns :=
  rewrite flow_returns; cbv beta iota.

(** An accepted Search: the world in which the flow starts. *)
Lemma handleSearch_accepted (env : Env) (w : World) :
  status w = IDLE \/ status w = ERROR ->
  truthy (trim (query w)) = true ->
  exists w1 es1,
    handleSearch env w
    = (Ok tt, exec (performSearchFlow env (query w)) w1)
    /\ trace w1 = trace w ++ es1
    /\ calls es1 = [] /\ log_writes es1 = []
    /\ logs w1 = [] /\ results w1 = None
    /\ query w1 = query w /\ history w1 = history w
    /\ isLuckyLoading w1 = isLuckyLoading w
    /\ audioContextRef w1 = audioContextRef w.
Proof.
  intros Hst Hq. open_world w.
  destruct Hst as [-> | ->]; run_outer; rewrite Hq; run_outer;
    use_stopAudio; run_outer; use_flow_returns;
    do 2 eexists; (split; [reflexivity|]); project;
    assoc_lists; (split; [reflexivity|]);
    events_now; repeat split; reflexivity.
Qed.

(** Workshop, past its guard, when the rewriting of the query
    resolves. *)
Lemma handleWorkshop_resolved (env : Env) (w : World)
    (text : option jsstring) :
  truthy (trim (query w)) = true ->
  isSearching w = false ->
  isLuckyLoading w = false ->
  backend_tweak env (query w) = inr text ->
  exists w1 es1,
    handleWorkshop env w
    = (Ok tt,
       exec (performSearchFlow env (text_or text (query w))) w1)
    /\ trace w1 = trace w ++ es1
    /\ calls es1 = [CallTweak (query w)]
    /\ logs w1
       = [ js "Gemini Workshop is optimizing your prompt: "
             ++ quoted (query w) ++ js "...";
           js "Workshop output: " ++ quoted (text_or text (query w)) ]
    /\ results w1 = None
    /\ query w1 = text_or text (query w)
    /\ history w1 = history w
    /\ isLuckyLoading w1 = false
    /\ audioContextRef w1 = audioContextRef w.
Proof.
  intros Hq Hs Hl Ht. open_world w. subst k0.
  unfold isSearching in Hs. cbn [status] in Hs.
  destruct s0; try discriminate Hs; run_outer; rewrite Hq; run_outer;
    use_stopAudio; run_outer; rewrite Ht; run_outer; use_flow_returns;
    do 2 eexists; (split; [reflexivity|]); project;
    assoc_lists; (split; [reflexivity|]);
    events_now; repeat split; reflexivity.
Qed.

(** Workshop, past its guard, when the rewriting of the query is
    rejected. *)
Lemma handleWorkshop_rejected (env : Env) (w : World) (e : Err) :
  truthy (trim (query w)) = true ->
  isSearching w = false ->
  isLuckyLoading w = false ->
  backend_tweak env (query w) = inl e ->
  exists w' es,
    handleWorkshop env w = (Ok tt, w')
    /\ trace w' = trace w ++ es
    /\ calls es = [CallTweak (query w)]
    /\ status w' = ERROR
    /\ error w' = Some (js "Workshop optimization failed.")
    /\ logs w'
       = [ js "Gemini Workshop is optimizing your prompt: "
             ++ quoted (query w) ++ js "...";
           js "Workshop failed to optimize the prompt." ]
    /\ results w' = None
    /\ query w' = query w
    /\ history w' = history w
    /\ isLuckyLoading w' = false
    /\ currentSourceRef w' = None
    /\ audioContextRef w' = audioContextRef w.
Proof.
  intros Hq Hs Hl Ht. open_world w. subst k0.
  unfold isSearching in Hs. cbn [status] in Hs.
  destruct s0; try discriminate Hs; run_outer; rewrite Hq; run_outer;
    use_stopAudio; run_outer; rewrite Ht; run_outer;
    do 2 eexists; (split; [reflexivity|]); project;
    assoc_lists; (split; [reflexivity|]);
    events_now; repeat split; reflexivity.
Qed.

(** Feeling Lucky, past its guard, when the prompt resolves. *)
Lemma handleFeelingLucky_resolved (env : Env) (w : World)
    (text : option jsstring) :
  isSearching w = false ->
  isLuckyLoading w = false ->
  backend_random env = inr text ->
  exists w1 es1,
    handleFeelingLucky env w
    = (Ok tt,
       exec (performSearchFlow env
               (text_or text (js "Why is the sky blue?"))) w1)
    /\ trace w1 = trace w ++ es1
    /\ calls es1 = [CallRandom]
    /\ logs w1
       = [ js "Gemini is brainstorming a unique topic for you...";
           js "Inspired query: "
             ++ quoted (text_or text (js "Why is the sky blue?")) ]
    /\ results w1 = None
    /\ query w1 = text_or text (js "Why is the sky blue?")
    /\ history w1 = history w
    /\ isLuckyLoading w1 = false
    /\ audioContextRef w1 = audioContextRef w.
Proof.
  intros Hs Hl Ht. open_world w. subst k0.
  unfold isSearching in Hs. cbn [status] in Hs.
  destruct s0; try discriminate Hs; run_outer;
    use_stopAudio; run_outer; rewrite Ht; run_outer; use_flow_returns;
    do 2 eexists; (split; [reflexivity|]); project;
    assoc_lists; (split; [reflexivity|]);
    events_now; repeat split; reflexivity.
Qed.

(** Feeling Lucky, past its guard, when the prompt is rejected. *)
Lemma handleFeelingLucky_rejected (env : Env) (w : World) (e : Err) :
  isSearching w = false ->
  isLuckyLoading w = false ->
  backend_random env = inl e ->
  exists w' es,
    handleFeelingLucky env w = (Ok tt, w')
    /\ trace w' = trace w ++ es
    /\ calls es = [CallRandom]
    /\ status w' = ERROR
    /\ error w'
       = Some (js "Inspiration failed. Please try a manual search.")
    /\ logs w'
       = [ js "Gemini is brainstorming a unique topic for you...";
           js "Failed to generate a random prompt." ]
    /\ results w' = None
    /\ query w' = query w
    /\ history w' = history w
    /\ isLuckyLoading w' = false
    /\ currentSourceRef w' = None
    /\ audioContextRef w' = audioContextRef w.
Proof.
  intros Hs Hl Ht. open_world w. subst k0.
  unfold isSearching in Hs. cbn [status] in Hs.
  destruct s0; try discriminate Hs; run_outer;
    use_stopAudio; run_outer; rewrite Ht; run_outer;
    do 2 eexists; (split; [reflexivity|]); project;
    assoc_lists; (split; [reflexivity|]);
    events_now; repeat split; reflexivity.
Qed.

(** FindMore with an active result, when the deeper query resolves. *)
Lemma handleFindMore_resolved (env : Env) (w : World)
    (res : SearchResponse) (text : option jsstring) :
  results w = Some res ->
  backend_refine env (query w) (summary res) = inr text ->
  exists w1 es1,
    handleFindMore env w
    = (Ok tt,
       exec (performSearchFlow env
               (text_or text (query w ++ js " in detail"))) w1)
    /\ trace w1 = trace w ++ es1
    /\ calls es1 = [CallRefine (query w) (summary res)]
    /\ logs w1
       = logs w ++
         [ js "Generating a deeper research query...";
           js "New exploration path: "
             ++ quoted (text_or text (query w ++ js " in detail")) ]
    /\ results w1 = Some res
    /\ query w1 = text_or text (query w ++ js " in detail")
    /\ history w1 = history w
    /\ isLuckyLoading w1 = isLuckyLoading w
    /\ audioContextRef w1 = audioContextRef w
    /\ forallb (fun e => negb (resets_log e)) es1 = true.
Proof.
  intros Hr Ht. open_world w. subst r0.
  run_outer. rewrite Ht. run_outer. use_flow_returns.
  do 2 eexists. split; [reflexivity|]. project.
  assoc_lists. split; [reflexivity|].
  events_now. repeat split; reflexivity.
Qed.

(** FindMore with an active result, when the deeper query is
    rejected. *)
Lemma handleFindMore_rejected (env : Env) (w : World)
    (res : SearchResponse) (e : Err) :
  results w = Some res ->
  backend_refine env (query w) (summary res) = inl e ->
  handleFindMore env w
  = (Ok tt,
     {| query := query w; status := ERROR; results := Some res;
        error := Some (js "Failed to generate a deeper query.");
        logs := logs w ++ [js "Generating a deeper research query..."];
        playbackFinished := playbackFinished w;
        isLuckyLoading := isLuckyLoading w; history := history w;
        audioContextRef := audioContextRef w;
        currentSourceRef := currentSourceRef w;
        nodes := nodes w;
        trace := trace w ++
          [ EvStatus ANALYZING;
            EvLog (js "Generating a deeper research query...");
            EvCall (CallRefine (query w) (summary res));
            EvStatus ERROR ] |}).
Proof.
  intros Hr Ht. open_world w. subst r0.
  run_outer. rewrite Ht. run_outer. assoc_lists. reflexivity.
Qed.


Lemma text_or_nonempty (text : option jsstring) (fallback : jsstring) :
  fallback <> [] -> text_or text fallback <> [].
Proof. intros H. unfold text_or. now apply or_else_nonempty. Qed.

(** The fallback of a helper call is taken exactly when the backend
    text is missing or blank; otherwise the text is taken, trimmed. *)
Lemma text_or_cases (text : option jsstring) (fallback : jsstring) :
  match text with
  | None => text_or text fallback = fallback
  | Some t =>
      (forallb is_space t = true /\ text_or text fallback = fallback)
      \/ (forallb is_space t = false /\ text_or text fallback = trim t)
  end.
Proof.
  destruct text as [t|]; [|reflexivity].
  unfold text_or, or_else. cbn [option_map].
  destruct (truthy (trim t)) eqn:E.
  - right. split; [|reflexivity].
    destruct (forallb is_space t) eqn:F; [|reflexivity].
    apply MarkerFacts.trim_blank in F. congruence.
  - left. split; [|reflexivity]. now apply MarkerFacts.trim_blank.
Qed.

Lemma truthy_trim_nonempty (s : jsstring) :
  truthy (trim s) = true -> s <> [].
Proof. intros H ->. vm_compute in H. discriminate H. Qed.

Lemma handleSearch_noop (env : Env) (w : World) :
  truthy (trim (query w)) = false
  \/ (status w <> IDLE /\ status w <> ERROR) ->
  handleSearch env w = (Ok tt, w).
Proof.
  intros H. unfold handleSearch, bind, get, skip, ret.
  destruct H as [-> | [H1 H2]]; [reflexivity|].
  destruct (status w); try congruence; cbn; now rewrite orb_true_r.
Qed.

Lemma handleWorkshop_noop (env : Env) (w : World) :
  truthy (trim (query w)) = false \/ isSearching w = true
  \/ isLuckyLoading w = true ->
  handleWorkshop env w = (Ok tt, w).
Proof.
  intros H. unfold handleWorkshop, bind, get, skip, ret.
  destruct H as [-> | [-> | ->]]; rewrite ?orb_true_r; reflexivity.
Qed.

Lemma handleFeelingLucky_noop (env : Env) (w : World) :
  isLuckyLoading w = true \/ isSearching w = true ->
  handleFeelingLucky env w = (Ok tt, w).
Proof.
  intros H. unfold handleFeelingLucky, bind, get, skip, ret.
  destruct H as [-> | ->]; rewrite ?orb_true_r; reflexivity.
Qed.

Lemma handleFindMore_noop (env : Env) (w : World) :
  results w = None -> handleFindMore env w = (Ok tt, w).
Proof.
  intros H. unfold handleFindMore, bind, get, skip, ret. now rewrite H.
Qed.

Lemma no_search_of (es : list Event) (c : RemoteCall) :
  calls es = [c] ->
  match c with CallSearch _ => False | _ => True end ->
  no_search es.
Proof.
  intros E Hc q Hin. rewrite E in Hin. destruct Hin as [H|[]].
  subst c. exact Hc.
Qed.

Lemma no_search_nil (es : list Event) : calls es = [] -> no_search es.
Proof. intros E q Hin. rewrite E in Hin. destruct Hin. Qed.

(** Every run of an entry point goes one of the three ways. *)
Lemma entry_outcomes (p : EntryPoint) (env : Env) (w : World) :
  entry_outcome env w (exec (entry p env) w).
Proof.
  unfold entry_outcome, exec. destruct p; cbn [entry].
  - (* Search *)
    destruct (truthy (trim (query w))) eqn:Hq.
    2:{ left. now rewrite handleSearch_noop by now left. }
    assert (Hd : (status w = IDLE \/ status w = ERROR)
                 \/ (status w <> IDLE /\ status w <> ERROR))
      by (destruct (status w); auto; right; split; discriminate).
    destruct Hd as [Hst|Hst].
    2:{ left. now rewrite handleSearch_noop by now right. }
    right. right.
    destruct (handleSearch_accepted env w Hst Hq)
      as [w1 [es1 [E [Ht [Hc [_ [_ [_ [Hq1 [Hh [Hl Ha]]]]]]]]]]].
    exists w1, es1. rewrite E, Hq1. cbn [snd].
    repeat split; auto using no_search_nil, truthy_trim_nonempty.
  - (* Workshop *)
    destruct (truthy (trim (query w))) eqn:Hq.
    2:{ left. now rewrite handleWorkshop_noop by now left. }
    destruct (isSearching w) eqn:Hs.
    { left. now rewrite handleWorkshop_noop by auto. }
    destruct (isLuckyLoading w) eqn:Hl.
    { left. now rewrite handleWorkshop_noop by auto. }
    destruct (backend_tweak env (query w)) as [e|text] eqn:Ht.
    + right. left.
      destruct (handleWorkshop_rejected env w Hq Hs Hl Ht)
        as [w' [es [E [Htr [Hc [Hst [He [_ [_ [_ [Hh [Hl' [_ Ha]]]]]]]]]]]]].
      exists es. rewrite E. cbn [snd]. rewrite He.
      repeat split; auto; try congruence.
      now apply (no_search_of _ Hc).
    + right. right.
      destruct (handleWorkshop_resolved env w Hq Hs Hl Ht)
        as [w1 [es1 [E [Htr [Hc [_ [_ [Hq1 [Hh [Hl' Ha]]]]]]]]]].
      exists w1, es1. rewrite E, Hq1. cbn [snd].
      repeat split; auto; try congruence.
      * apply text_or_nonempty. now apply truthy_trim_nonempty.
      * now apply (no_search_of _ Hc).
  - (* Feeling Lucky *)
    destruct (isSearching w) eqn:Hs.
    { left. now rewrite handleFeelingLucky_noop by auto. }
    destruct (isLuckyLoading w) eqn:Hl.
    { left. now rewrite handleFeelingLucky_noop by auto. }
    destruct (backend_random env) as [e|text] eqn:Ht.
    + right. left.
      destruct (handleFeelingLucky_rejected env w Hs Hl Ht)
        as [w' [es [E [Htr [Hc [Hst [He [_ [_ [_ [Hh [Hl' [_ Ha]]]]]]]]]]]]].
      exists es. rewrite E. cbn [snd]. rewrite He.
      repeat split; auto; try congruence.
      now apply (no_search_of _ Hc).
    + right. right.
      destruct (handleFeelingLucky_resolved env w Hs Hl Ht)
        as [w1 [es1 [E [Htr [Hc [_ [_ [Hq1 [Hh [Hl' Ha]]]]]]]]]].
      exists w1, es1. rewrite E, Hq1. cbn [snd].
      repeat split; auto; try congruence.
      * apply text_or_nonempty. vm_compute. discriminate.
      * now apply (no_search_of _ Hc).
  - (* FindMore *)
    destruct (results w) as [res|] eqn:Hr.
    2:{ left. now rewrite handleFindMore_noop. }
    destruct (backend_refine env (query w) (summary res)) as [e|text] eqn:Ht.
    + right. left.
      rewrite (handleFindMore_rejected env w Hr Ht). cbn [snd].
      eexists. split; [reflexivity|]. cbn.
      repeat split; auto; try discriminate.
      intros q [H|[]]. discriminate H.
    + right. right.
      destruct (handleFindMore_resolved env w Hr Ht)
        as [w1 [es1 [E [Htr [Hc [_ [_ [Hq1 [Hh [Hl' [Ha _]]]]]]]]]]].
      exists w1, es1. rewrite E, Hq1. cbn [snd].
      repeat split; auto.
      * apply text_or_nonempty. intros H. apply app_eq_nil in H.
        destruct H as [_ H]. vm_compute in H. discriminate H.
      * now apply (no_search_of _ Hc).
Qed.

End EntryFacts.

Module EntryTheorems.

Import Flow FlowFacts EntryFacts.

Lemma emitted_self (w : World) : emitted w w = [].
Proof. unfold emitted. apply skipn_all. Qed.

Lemma emitted_two (w w1 w' : World) (es1 es : list Event) :
  trace w1 = trace w ++ es1 -> trace w' = trace w1 ++ es ->
  emitted w w' = es1 ++ es.
Proof.
  intros H1 H2. apply emitted_app. now rewrite H2, H1, app_assoc.
Qed.

Lemma hd_error_cons (A : Type) (l : list A) (x : A) :
  hd_error l = Some x -> exists rest, l = x :: rest.
Proof. destruct l as [|y l]; [discriminate|]. intros H. injection H as ->.
  now exists l. Qed.

(** X12. A query made of white space only (spaces, tabs, line breaks,
    no-break spaces and the like), the empty query included, makes both
    Search and Workshop silent no-ops in every state. *)
Theorem blank_query_ignored (env : Env) (w : World) :
  forallb is_space (query w) = true ->
  handleSearch env w = (Ok tt, w) /\ handleWorkshop env w = (Ok tt, w).
Proof.
  intros H. apply MarkerFacts.trim_blank in H. split.
  - apply handleSearch_noop. now left.
  - apply handleWorkshop_noop. now left.
Qed.

Lemma blank_query_ignored_witness :
  let w := exec (setQuery ([32; 160; 9; 10]%N)) initial in
  handleSearch ok_env w = (Ok tt, w) /\ handleWorkshop ok_env w = (Ok tt, w).
Proof.
  apply (@blank_query_ignored ok_env
           (exec (setQuery ([32; 160; 9; 10]%N)) initial)).
  reflexivity.
Defined.

(** X13. An accepted Search (state Idle or Error, query not blank)
    starts afresh: the query is sent to the search as it was typed,
    untrimmed; the log afterwards holds the lines of this run only; the
    previous result is cleared before the search, so that no result is
    active when the search fails. The query field is not changed. *)
Theorem search_starts_afresh (env : Env) (w : World) :
  status w = IDLE \/ status w = ERROR ->
  truthy (trim (query w)) = true ->
  let w' := exec (handleSearch env) w in
  hd_error (calls (emitted w w')) = Some (CallSearch (query w))
  /\ logs w' = log_writes (emitted w w')
  /\ query w' = query w
  /\ results w'
     = match backend_search env (query w) with
       | inl _ => None
       | inr r => Some (searchAndSummarize_result (query w) r)
       end.
Proof.
  intros Hst Hq w'. subst w'. unfold exec.
  destruct (handleSearch_accepted env w Hst Hq)
    as [w1 [es1 [E [Ht [Hc [Hlw [Hl [Hr [Hq1 _]]]]]]]]].
  rewrite E. cbn [snd].
  destruct (flow_summary env (query w) w1)
    as [es [Ht' [_ [Hl' [Hhd [_ [_ [Hq' [_ [Hr' _]]]]]]]]]].
  rewrite (@emitted_two _ _ _ _ _ Ht Ht').
  rewrite calls_app, log_writes_app, Hc, Hlw, Hl', Hl, Hq', Hq1, Hr', Hr.
  repeat split; auto.
Qed.

Lemma search_starts_afresh_witness :
  let w := run [TypeQuery (js " paris ")] idle_world in
  let w' := exec (handleSearch ok_env) w in
  hd_error (calls (emitted w w')) = Some (CallSearch (js " paris "))
  /\ logs w' = log_writes (emitted w w').
Proof.
  destruct (@search_starts_afresh ok_env
              (run [TypeQuery (js " paris ")] idle_world)
              (or_introl eq_refl) eq_refl) as [H1 [H2 _]].
  split; [exact H1 | exact H2].
Defined.

(** X14. Workshop, past its guard. When the rewriting of the query is
    rejected, the handler ends in Error with its own message, after the
    single remote call that failed: nothing is searched, the previous
    result is gone, and the query and the history are unchanged. When
    it resolves, the query field becomes the rewritten query, which is
    the backend text trimmed, or the typed query itself when that text
    is missing or blank, and the search that follows is made with
    it. *)
Theorem workshop_outcomes (env : Env) (w : World) :
  truthy (trim (query w)) = true ->
  isSearching w = false ->
  isLuckyLoading w = false ->
  let w' := exec (handleWorkshop env) w in
  (forall e, backend_tweak env (query w) = inl e ->
     status w' = ERROR
     /\ error w' = Some (js "Workshop optimization failed.")
     /\ calls (emitted w w') = [CallTweak (query w)]
     /\ logs w'
        = [ js "Gemini Workshop is optimizing your prompt: "
              ++ quoted (query w) ++ js "...";
            js "Workshop failed to optimize the prompt." ]
     /\ results w' = None
     /\ query w' = query w
     /\ history w' = history w)
  /\ (forall text, backend_tweak env (query w) = inr text ->
        let q' := text_or text (query w) in
        query w' = q'
        /\ (exists rest,
              calls (emitted w w')
              = CallTweak (query w) :: CallSearch q' :: rest)
        /\ match text with
           | None => q' = query w
           | Some t => if forallb is_space t then q' = query w
                       else q' = trim t
           end).
Proof.
  intros Hq Hs Hl w'. subst w'. unfold exec. split.
  - intros e Ht.
    destruct (handleWorkshop_rejected env w Hq Hs Hl Ht)
      as [w' [es [E [Htr [Hc [Hst [He [Hlg [Hr [Hq' [Hh _]]]]]]]]]]].
    rewrite E. cbn [snd]. rewrite (@emitted_app _ _ _ Htr).
    repeat split; assumption.
  - intros text Ht. cbv zeta.
    pose (q' := text_or text (query w)).
    destruct (handleWorkshop_resolved env w Hq Hs Hl Ht)
      as [w1 [es1 [E [Htr [Hc [_ [_ [Hq1 _]]]]]]]].
    rewrite E. cbn [snd].
    subst q'.
    destruct (flow_summary env (text_or text (query w)) w1)
      as [es [Ht' [_ [_ [Hhd [_ [_ [Hq' _]]]]]]]].
    rewrite (@emitted_two _ _ _ _ _ Htr Ht'), calls_app, Hc.
    destruct (@hd_error_cons _ _ _ Hhd) as [rest ->].
    split; [now rewrite Hq', Hq1|]. split; [now exists rest|].
    pose proof (text_or_cases text (query w)) as Hcases.
    destruct text as [t|]; [|exact Hcases].
    destruct Hcases as [[-> H]|[-> H]]; exact H.
Qed.

Lemma workshop_outcomes_witness :
  let w := run [TypeQuery (js "paris")] initial in
  query (exec (handleWorkshop ok_env) w) = js "history of Paris".
Proof.
  destruct (@workshop_outcomes ok_env (run [TypeQuery (js "paris")] initial)
              eq_refl eq_refl eq_refl) as [_ H].
  destruct (H (Some (js " history of Paris ")) eq_refl) as [H1 _].
  exact H1.
Defined.

(** X15. Feeling Lucky, past its guard. When the prompt request is
    rejected, the handler ends in Error with its own message and the
    lucky flag down, after the single remote call that failed. When it
    resolves, the query field becomes the prompt, which is the backend
    text trimmed, or [Why is the sky blue?] when that text is missing or
    blank, the search that follows is made with it, and the lucky flag
    is down. *)
Theorem feeling_lucky_outcomes (env : Env) (w : World) :
  isSearching w = false ->
  isLuckyLoading w = false ->
  let w' := exec (handleFeelingLucky env) w in
  (forall e, backend_random env = inl e ->
     status w' = ERROR
     /\ error w'
        = Some (js "Inspiration failed. Please try a manual search.")
     /\ calls (emitted w w') = [CallRandom]
     /\ isLuckyLoading w' = false
     /\ results w' = None
     /\ query w' = query w
     /\ history w' = history w)
  /\ (forall text, backend_random env = inr text ->
        let q' := text_or text (js "Why is the sky blue?") in
        query w' = q'
        /\ isLuckyLoading w' = false
        /\ (exists rest,
              calls (emitted w w') = CallRandom :: CallSearch q' :: rest)
        /\ match text with
           | None => q' = js "Why is the sky blue?"
           | Some t => if forallb is_space t
                       then q' = js "Why is the sky blue?"
                       else q' = trim t
           end).
Proof.
  intros Hs Hl w'. subst w'. unfold exec. split.
  - intros e Ht.
    destruct (handleFeelingLucky_rejected env w Hs Hl Ht)
      as [w' [es [E [Htr [Hc [Hst [He [Hlg [Hr [Hq' [Hh [Hl' _]]]]]]]]]]]].
    rewrite E. cbn [snd]. rewrite (@emitted_app _ _ _ Htr).
    repeat split; assumption.
  - intros text Ht. cbv zeta.
    pose (q' := text_or text (js "Why is the sky blue?")).
    destruct (handleFeelingLucky_resolved env w Hs Hl Ht)
      as [w1 [es1 [E [Htr [Hc [_ [_ [Hq1 [_ [Hl1 _]]]]]]]]]].
    rewrite E. cbn [snd].
    subst q'.
    destruct (flow_summary env (text_or text (js "Why is the sky blue?")) w1)
      as [es [Ht' [_ [_ [Hhd [_ [_ [Hq' [Hl' _]]]]]]]]].
    rewrite (@emitted_two _ _ _ _ _ Htr Ht'), calls_app, Hc.
    destruct (@hd_error_cons _ _ _ Hhd) as [rest ->].
    split; [now rewrite Hq', Hq1|]. split; [now rewrite Hl', Hl1|].
    split; [now exists rest|].
    pose proof (text_or_cases text (js "Why is the sky blue?")) as Hcases.
    destruct text as [t|]; [|exact Hcases].
    destruct Hcases as [[-> H]|[-> H]]; exact H.
Qed.

Lemma feeling_lucky_outcomes_witness :
  query (exec (handleFeelingLucky ok_env) initial)
  = js "Why is the sky blue?".
Proof.
  destruct (@feeling_lucky_outcomes ok_env initial eq_refl eq_refl)
    as [_ H].
  destruct (H None eq_refl) as [H1 _]. exact H1.
Defined.

(** X16. FindMore with an active result. The deeper query is requested
    for the current query and the summary of the active result. When
    that request is rejected, the handler ends in Error with its own
    message and writes no line about the failure: the log has gained the
    announcement only, and the active result, the query and the history
    are unchanged. When it resolves, the query field becomes the deeper
    query, which is the backend text trimmed, or the current query
    followed by [ in detail] when that text is missing or blank; the
    search that follows is made with it, and the log is continued, not
    cleared. *)
Theorem find_more_outcomes (env : Env) (w : World) (res : SearchResponse) :
  results w = Some res ->
  let w' := exec (handleFindMore env) w in
  (forall e, backend_refine env (query w) (summary res) = inl e ->
     status w' = ERROR
     /\ error w' = Some (js "Failed to generate a deeper query.")
     /\ calls (emitted w w') = [CallRefine (query w) (summary res)]
     /\ logs w' = logs w ++ [js "Generating a deeper research query..."]
     /\ results w' = Some res
     /\ query w' = query w
     /\ history w' = history w)
  /\ (forall text, backend_refine env (query w) (summary res) = inr text ->
        let q' := text_or text (query w ++ js " in detail") in
        query w' = q'
        /\ (exists rest,
              calls (emitted w w')
              = CallRefine (query w) (summary res) :: CallSearch q' :: rest)
        /\ (exists rest,
              logs w'
              = logs w
                ++ [ js "Generating a deeper research query...";
                     js "New exploration path: " ++ quoted q' ]
                ++ rest)
        /\ forallb (fun e => negb (resets_log e)) (emitted w w') = true
        /\ match text with
           | None => q' = query w ++ js " in detail"
           | Some t => if forallb is_space t
                       then q' = query w ++ js " in detail"
                       else q' = trim t
           end).
Proof.
  intros Hr w'. subst w'. unfold exec. split.
  - intros e Ht. rewrite (handleFindMore_rejected env w Hr Ht). cbn [snd].
    unfold emitted. cbn [trace status error logs results query history].
    rewrite skipn_app, skipn_all, Nat.sub_diag.
    repeat split; reflexivity.
  - intros text Ht. cbv zeta.
    pose (q' := text_or text (query w ++ js " in detail")).
    destruct (handleFindMore_resolved env w Hr Ht)
      as [w1 [es1 [E [Htr [Hc [Hlg [_ [Hq1 [_ [_ [_ Hnr1]]]]]]]]]]].
    rewrite E. cbn [snd].
    subst q'.
    destruct (flow_summary env (text_or text (query w ++ js " in detail")) w1)
      as [es [Ht' [Hnr [Hl' [Hhd [_ [_ [Hq' _]]]]]]]].
    rewrite (@emitted_two _ _ _ _ _ Htr Ht'), calls_app, Hc.
    destruct (@hd_error_cons _ _ _ Hhd) as [rest ->].
    split; [now rewrite Hq', Hq1|]. split; [now exists rest|].
    split; [exists (log_writes es); now rewrite Hl', Hlg, <- app_assoc|].
    split; [now rewrite forallb_app, Hnr, Hnr1|].
    pose proof (text_or_cases text (query w ++ js " in detail")) as Hcases.
    destruct text as [t|]; [|exact Hcases].
    destruct Hcases as [[-> H]|[-> H]]; exact H.
Qed.

Lemma find_more_outcomes_witness :
  let w' := exec (handleFindMore ok_env) idle_world in
  query w' = js "paris in detail"
  /\ exists rest,
       calls (emitted idle_world w')
       = CallRefine (js "paris") (js "Paris is old.")
         :: CallSearch (js "paris in detail") :: rest.
Proof.
  destruct (@find_more_outcomes ok_env idle_world
              (searchAndSummarize_result (js "paris") sample_reply)
              eq_refl) as [_ H].
  destruct (H None eq_refl) as [H1 [H2 _]].
  split; [exact H1 | exact H2].
Defined.

End EntryTheorems.

Module SessionFacts.

Import Flow FlowFacts EntryFacts EntryTheorems.

(** X17. None of Search, Workshop, Feeling Lucky and FindMore ever
    sends an empty query to the search: every search request in a run
    of one of them carries a non-empty query. *)
Theorem entry_points_never_search_empty (p : EntryPoint) (env : Env)
    (w : World) (q : jsstring) :
  In (CallSearch q) (calls (emitted w (exec (entry p env) w))) ->
  q <> [].
Proof.
  destruct (entry_outcomes p env w)
    as [E | [[es [Ht [Hn _]]] | [w1 [es1 [E [Hq [Ht [Hn _]]]]]]]].
  - rewrite E, emitted_self. intros [].
  - rewrite (@emitted_app _ _ _ Ht). intros H. destruct (Hn q H).
  - rewrite E.
    destruct (flow_summary env (query w1) w1)
      as [es [Ht' [_ [_ [_ [Hall _]]]]]].
    rewrite (@emitted_two _ _ _ _ _ Ht Ht'), calls_app, in_app_iff.
    intros [H|H]; [destruct (Hn q H)|].
    now rewrite (Hall q H).
Qed.

Lemma entry_points_never_search_empty_witness :
  In (CallSearch (js "Why is the sky blue?"))
    (calls (emitted initial (exec (entry FeelingLucky ok_env) initial)))
  /\ js "Why is the sky blue?" <> [].
Proof.
  assert (H : In (CallSearch (js "Why is the sky blue?"))
                (calls (emitted initial
                          (exec (entry FeelingLucky ok_env) initial)))).
  { vm_compute. right. left. reflexivity. }
  split; [exact H|].
  exact (@entry_points_never_search_empty FeelingLucky ok_env initial _ H).
Defined.

(** X18. After a run of Search, Workshop, Feeling Lucky or FindMore the
    history is either what it was or has gained one entry at its head,
    the first 19 earlier entries following in their order; and a gained
    entry mirrors the session: its query is the query field and its
    results are the active result. *)
Theorem history_head_mirrors_session (p : EntryPoint) (env : Env)
    (w : World) :
  let w' := exec (entry p env) w in
  history w' = history w
  \/ exists item,
       history w' = item :: firstn 19 (history w)
       /\ item_query item = query w'
       /\ results w' = Some (item_results item).
Proof.
  cbv zeta.
  destruct (entry_outcomes p env w)
    as [E | [[es [_ [_ [_ [_ [Hh _]]]]]]
            | [w1 [es1 [E [_ [_ [_ [Hh _]]]]]]]]].
  - left. now rewrite E.
  - now left.
  - rewrite E.
    destruct (flow_summary env (query w1) w1)
      as [es [_ [_ [_ [_ [_ [_ [Hq [_ [Hr _]]]]]]]]]].
    rewrite performSearchFlow_history, Hr, Hq, Hh.
    destruct (backend_search env (query w1)) as [e|r]; [now left|].
    right. eexists. split; [reflexivity|]. split; reflexivity.
Qed.

(** What the remaining actions leave. *)
Lemma handleGoBack_world (w : World) :
  exists ns es,
    handleGoBack w
    = (Ok tt,
       {| query := query w; status := IDLE; results := None;
          error := error w; logs := [];
          playbackFinished := false;
          isLuckyLoading := isLuckyLoading w; history := history w;
          audioContextRef := audioContextRef w;
          currentSourceRef := None;
          nodes := ns;
          trace := trace w ++ es |})
    /\ calls es = []
    /\ forallb quiet es = true
    /\ (forall n, currentSourceRef w = Some n ->
          node_state_at n w = Some NodePlaying ->
          option_map node_state (nth_error ns n) = Some NodeEndedPending).
Proof.
  unfold handleGoBack, bind.
  destruct (stopAudio_effect w)
    as [ns [es [E [Hc [_ [_ [Hq [_ [Hn _]]]]]]]]].
  rewrite E. exists ns. eexists. split.
  - run_outer. assoc_lists. reflexivity.
  - split; [|split; [|exact Hn]].
    + rewrite calls_app, Hc. reflexivity.
    + rewrite forallb_app, Hq. reflexivity.
Qed.

Lemma host_buffer_end_frame (n : nat) (w : World) :
  let w' := exec (host_buffer_end n) w in
  status w' = status w /\ isLuckyLoading w' = isLuckyLoading w
  /\ audioContextRef w' = audioContextRef w /\ history w' = history w
  /\ results w' = results w /\ query w' = query w.
Proof.
  open_world w. run_handler.
  destruct (option_map node_state (nth_error n0 n)) as [[]|];
    run_handler; repeat split; reflexivity.
Qed.

Lemma host_dispatch_ended_frame (n : nat) (w : World) :
  let w' := exec (host_dispatch_ended n) w in
  (status w' = status w \/ status w' = IDLE)
  /\ isLuckyLoading w' = isLuckyLoading w
  /\ audioContextRef w' = audioContextRef w /\ history w' = history w
  /\ results w' = results w /\ query w' = query w.
Proof.
  open_world w. run_handler.
  destruct (option_map node_state (nth_error n0 n)) as [[]|];
    run_handler; repeat split; auto.
Qed.

Lemma isSearching_terminal (w : World) :
  status w = IDLE \/ status w = PLAYING \/ status w = ERROR ->
  isSearching w = false.
Proof. unfold isSearching. intros [-> | [-> | ->]]; reflexivity. Qed.

(** One action, from a world at rest or with an audio context. *)
Lemma act_settles (a : Action) (w : World) :
  (at_rest w -> at_rest (exec (act a) w))
  /\ (audioContextRef w = true -> audioContextRef (exec (act a) w) = true).
Proof.
  assert (Hflow : forall env q w0,
            (at_rest w0 -> at_rest (exec (performSearchFlow env q) w0))
            /\ (audioContextRef w0 = true ->
                audioContextRef (exec (performSearchFlow env q) w0) = true)).
  { intros env q w0.
    destruct (flow_summary env q w0)
      as [es [_ [_ [_ [_ [_ [Hst [_ [Hl [_ Ha]]]]]]]]]].
    split; [|exact Ha]. intros [_ Hl0]. split.
    - apply isSearching_terminal. tauto.
    - now rewrite Hl. }
  assert (Hentry : forall p env,
            (at_rest w -> at_rest (exec (entry p env) w))
            /\ (audioContextRef w = true ->
                audioContextRef (exec (entry p env) w) = true)).
  { intros p env.
    destruct (entry_outcomes p env w)
      as [E | [[es [_ [_ [Hst [_ [_ [Hl Ha]]]]]]]
              | [w1 [es1 [E [_ [_ [_ [_ [Hl Ha]]]]]]]]]].
    - rewrite E. tauto.
    - split; [|now rewrite Ha]. intros [_ Hl0]. split.
      + apply isSearching_terminal. tauto.
      + now rewrite Hl.
    - rewrite E. destruct (Hflow env (query w1) w1) as [H1 H2]. split.
      + intros [Hs0 Hl0]. destruct (flow_summary env (query w1) w1)
          as [es [_ [_ [_ [_ [_ [Hst [_ [Hl' _]]]]]]]]].
        split; [apply isSearching_terminal; tauto | now rewrite Hl', Hl].
      + intros H. apply H2. now rewrite Ha. }
  destruct a; cbn [act].
  - (* TypeQuery *) split; intros H; exact H.
  - exact (Hentry Search env).
  - exact (Hentry Workshop env).
  - exact (Hentry FeelingLucky env).
  - exact (Hentry FindMore env).
  - (* Replay *)
    assert (Er : exec (replay env) w
                 = exec (performSearchFlow env (query w)) w).
    { unfold exec, replay, bind, get. reflexivity. }
    rewrite Er. exact (Hflow env (query w) w).
  - (* Stop *)
    unfold exec.
    destruct (stopAudio_effect w) as [ns [es [E _]]]. rewrite E.
    cbn [snd]. split.
    + intros [Hs Hl]. split; [|exact Hl].
      unfold isSearching in *. cbn [status].
      destruct (status w); try discriminate Hs; reflexivity.
    + intros H. exact H.
  - (* GoBack *)
    unfold exec.
    destruct (handleGoBack_world w) as [ns [es [E _]]]. rewrite E.
    cbn [snd]. split.
    + intros [Hs Hl]. split; [reflexivity | exact Hl].
    + intros H. exact H.
  - (* History *)
    unfold exec, bind, get.
    destruct (nth_error (history w) i) as [item|].
    + destruct (Session.handleHistoryClick_world item w)
        as [ns [es [E _]]]. rewrite E. cbn [snd]. split.
      * intros [Hs Hl]. split; [reflexivity | exact Hl].
      * intros H. exact H.
    + split; intros H; exact H.
  - (* buffer end *)
    destruct (host_buffer_end_frame n w) as [Hst [Hl [Ha _]]].
    split.
    + intros [Hs Hl0]. split; [|now rewrite Hl].
      unfold isSearching in *. now rewrite Hst.
    + intros H. now rewrite Ha.
  - (* ended *)
    destruct (host_dispatch_ended_frame n w) as [Hst [Hl [Ha _]]].
    split.
    + intros [Hs Hl0]. split; [|now rewrite Hl].
      unfold isSearching in *. destruct Hst as [-> | ->];
        [exact Hs | reflexivity].
    + intros H. now rewrite Ha.
Qed.

(** X19. No handler leaves the session in a busy state: from a world
    in which no flow is in progress (state Idle, Playing or Error, lucky
    flag down), every sequence of user and host actions, each run to its
    end, leads to such a world again. *)
Theorem session_comes_to_rest (acts : list Action) (w : World) :
  at_rest w -> at_rest (run acts w).
Proof.
  revert w. induction acts as [|a acts IH]; intros w H; [exact H|].
  cbn [run fold_left]. apply IH. now apply act_settles.
Qed.

Lemma session_comes_to_rest_witness :
  at_rest
    (run [TypeQuery (js "paris"); ClickWorkshop ok_env; ClickStop;
          ClickFindMore mute_env; ClickFeelingLucky ok_env] initial).
Proof.
  apply session_comes_to_rest. split; reflexivity.
Defined.

Lemma no_flow_keeps_context (a : Action) (w : World) :
  starts_no_flow a = true ->
  audioContextRef (exec (act a) w) = audioContextRef w.
Proof.
  destruct a; try discriminate; intros _; cbn [act].
  - reflexivity.
  - unfold exec. destruct (stopAudio_effect w) as [ns [es [E _]]].
    now rewrite E.
  - unfold exec. destruct (handleGoBack_world w) as [ns [es [E _]]].
    now rewrite E.
  - unfold exec, bind, get.
    destruct (nth_error (history w) i) as [item|]; [|reflexivity].
    destruct (Session.handleHistoryClick_world item w) as [ns [es [E _]]].
    now rewrite E.
  - now destruct (host_buffer_end_frame n w) as [_ [_ [H _]]].
  - now destruct (host_dispatch_ended_frame n w) as [_ [_ [H _]]].
Qed.

(** X20. No handler clears the reference to the audio context: once a
    context exists, one exists after every sequence of user and host
    actions. Actions that start no flow (typing, Stop, Go back, a click
    on a history entry, the events of the playback) leave the reference
    as they find it, so none of them creates a context either. *)
Theorem audio_context_kept (acts : list Action) (w : World) :
  (audioContextRef w = true -> audioContextRef (run acts w) = true)
  /\ (forallb starts_no_flow acts = true ->
      audioContextRef (run acts w) = audioContextRef w).
Proof.
  split.
  - revert w. induction acts as [|a acts IH]; intros w H; [exact H|].
    cbn [run fold_left]. apply IH. now apply act_settles.
  - revert w. induction acts as [|a acts IH]; intros w H; [reflexivity|].
    cbn [forallb] in H. apply andb_true_iff in H. destruct H as [Ha H].
    cbn [run fold_left]. change (fold_left _ acts ?v) with (run acts v).
    now rewrite (IH _ H), no_flow_keeps_context.
Qed.

Lemma audio_context_kept_witness :
  audioContextRef playing_world = true
  /\ audioContextRef
       (run [ClickGoBack; ClickFeelingLucky mute_env] playing_world) = true
  /\ audioContextRef initial = false
  /\ audioContextRef
       (run [TypeQuery (js "paris"); ClickStop; ClickGoBack; ClickHistory 0]
          initial) = false.
Proof.
  split; [reflexivity|].
  split;
    [apply (proj1 (audio_context_kept
                     [ClickGoBack; ClickFeelingLucky mute_env]
                     playing_world)); reflexivity|].
  split; [reflexivity|].
  apply (proj2 (audio_context_kept
                  [TypeQuery (js "paris"); ClickStop; ClickGoBack;
                   ClickHistory 0] initial)).
  reflexivity.
Defined.

(** X21. Go back stops the playback in progress, if any, and resets
    the view of the results: no active result, an empty log, state Idle,
    playback-finished flag down, no remote call. It leaves the query,
    the history and the error field as they were, so after an error the
    error box is still shown and the landing buttons, Workshop among
    them, are not offered. *)
Theorem go_back_resets (w : World) :
  let w' := exec handleGoBack w in
  results w' = None
  /\ logs w' = []
  /\ status w' = IDLE
  /\ playbackFinished w' = false
  /\ currentSourceRef w' = None
  /\ (forall n, currentSourceRef w = Some n ->
        node_state_at n w = Some NodePlaying ->
        node_state_at n w' = Some NodeEndedPending)
  /\ calls (emitted w w') = []
  /\ query w' = query w
  /\ history w' = history w
  /\ error w' = error w
  /\ findMore_offered w' = false
  /\ replay_enabled w' = false
  /\ (error_shown w = true -> workshop_enabled w' = false).
Proof.
  cbv zeta. unfold exec.
  destruct (handleGoBack_world w) as [ns [es [E [Hc [_ Hn]]]]].
  rewrite E. cbn [snd].
  unfold emitted. cbn [trace].
  rewrite skipn_app, skipn_all, Nat.sub_diag. cbn [skipn app].
  unfold findMore_offered, replay_enabled, workshop_enabled, error_shown,
    node_state_at.
  cbn [results logs status playbackFinished currentSourceRef query history
       error nodes is_some].
  repeat split; auto.
  intros ->. now rewrite !andb_false_r.
Qed.

Lemma go_back_resets_witness :
  let w := exec (performSearchFlow mute_env (js "paris")) initial in
  error_shown w = true
  /\ results (exec handleGoBack w) = None
  /\ workshop_enabled (exec handleGoBack w) = false.
Proof.
  destruct (go_back_resets
              (exec (performSearchFlow mute_env (js "paris")) initial))
    as [H1 [_ [_ [_ [_ [_ [_ [_ [_ [_ [_ [_ H13]]]]]]]]]]]].
  split; [reflexivity|]. split; [exact H1 | exact (H13 eq_refl)].
Defined.

(** X22. Stop is idempotent in every world: after one call a second
    call changes nothing. A call leaves no current source and no state
    Playing: it turns the state Playing into Idle and leaves every other
    state as it is. It never touches the result, the log, the query, the
    error, the history or the playback-finished flag, and with no
    current source outside Playing it does nothing at all. *)
Theorem stop_idempotent (w : World) :
  let w1 := exec stopAudio w in
  stopAudio w1 = (Ok tt, w1)
  /\ currentSourceRef w1 = None
  /\ status w1 <> PLAYING
  /\ (status w = PLAYING -> status w1 = IDLE)
  /\ (status w <> PLAYING -> status w1 = status w)
  /\ results w1 = results w /\ logs w1 = logs w /\ query w1 = query w
  /\ error w1 = error w /\ history w1 = history w
  /\ playbackFinished w1 = playbackFinished w
  /\ (currentSourceRef w = None -> status w <> PLAYING ->
      stopAudio w = (Ok tt, w)).
Proof.
  cbv zeta. unfold exec.
  assert (Hlast : currentSourceRef w = None -> status w <> PLAYING ->
                  stopAudio w = (Ok tt, w)).
  { intros Hc Hs. open_world w. subst c0.
    destruct s0; try congruence; run_handler; reflexivity. }
  destruct (stopAudio_effect w) as [ns [es [E _]]].
  rewrite E at 1 2 3 4 5 6 7 8 9 10 11 12. cbn [snd].
  cbn [results logs status playbackFinished currentSourceRef query history
       error].
  split.
  { clear E Hlast. open_world w. destruct s0; run_handler; reflexivity. }
  split; [reflexivity|].
  split; [destruct (status w); cbn; discriminate|].
  split; [intros H; rewrite H; reflexivity|].
  split; [intros H; destruct (status w); cbn; congruence|].
  repeat (split; [reflexivity|]).
  exact Hlast.
Qed.

Lemma stop_idempotent_witness :
  stopAudio initial = (Ok tt, initial)
  /\ status playing_world = PLAYING
  /\ status (exec stopAudio playing_world) = IDLE
  /\ status (exec stopAudio searching_world) = SEARCHING.
Proof.
  destruct (stop_idempotent initial)
    as [_ [_ [_ [_ [_ [_ [_ [_ [_ [_ [_ H]]]]]]]]]]].
  destruct (stop_idempotent playing_world) as [_ [_ [_ [Hp _]]]].
  destruct (stop_idempotent searching_world) as [_ [_ [_ [_ [Hs _]]]]].
  split; [apply H; [reflexivity | discriminate]|].
  split; [reflexivity|].
  split; [apply Hp; reflexivity|].
  rewrite Hs; [reflexivity | vm_compute; discriminate].
Defined.

(** X23. Natural completion: when the node that is the current source
    has played its buffer to the end and its [ended] event is
    dispatched, the state becomes Idle, the current source is cleared,
    the playback-finished flag is set and the log gains the line of the
    finished playback; the active result is untouched, so with a result
    on display both Replay and the FindMore button are offered. *)
Theorem natural_completion (w : World) (n : nat) :
  node_state_at n w = Some NodePlaying ->
  let w' := run [HostBufferEnd n; HostEnded n] w in
  status w' = IDLE
  /\ currentSourceRef w' = None
  /\ playbackFinished w' = true
  /\ logs w' = logs w ++ [js "Playback finished."]
  /\ node_state_at n w' = Some NodeFinished
  /\ results w' = results w
  /\ emitted w w'
     = [EvNodeEnd n; EvEnded n; EvStatus IDLE;
        EvLog (js "Playback finished.")]
  /\ (results w <> None ->
      replay_enabled w' = true /\ findMore_offered w' = true).
Proof.
  intros Hnode w'. subst w'. cbn [run fold_left act].
  assert (E1 : exec (host_buffer_end n) w
               = record_event (EvNodeEnd n)
                   (set_node_state n NodeEndedPending w)).
  { unfold exec, host_buffer_end, bind, get, modify. now rewrite Hnode. }
  rewrite E1.
  set (w1 := record_event _ _).
  assert (Hn1 : node_state_at n w1 = Some NodeEndedPending).
  { unfold w1, node_state_at, set_node_state in *. cbn [nodes record_event
      with_nodes]. rewrite Session.nth_error_update_node.
    destruct (nth_error (nodes w) n); [reflexivity | discriminate]. }
  unfold exec. rewrite (Session.dispatch_pending w1 n Hn1). cbn [snd].
  unfold emitted, replay_enabled, findMore_offered, isSearching,
    node_state_at.
  cbn [status currentSourceRef playbackFinished logs nodes results trace
       w1 record_event set_node_state with_nodes status_eqb negb andb].
  rewrite <- app_assoc, skipn_app, skipn_all, Nat.sub_diag.
  cbn [skipn app].
  repeat split; try reflexivity.
  - rewrite !Session.nth_error_update_node.
    unfold node_state_at in Hnode.
    destruct (nth_error (nodes w) n); [reflexivity | discriminate].
  - destruct (results w); [reflexivity | congruence].
  - destruct (results w); [reflexivity | congruence].
Qed.

Lemma natural_completion_witness :
  let w' := run [HostBufferEnd 0; HostEnded 0] playing_world in
  status w' = IDLE /\ playbackFinished w' = true
  /\ findMore_offered w' = true.
Proof.
  destruct (@natural_completion playing_world 0 eq_refl)
    as [H1 [_ [H3 [_ [_ [_ [_ H8]]]]]]].
  split; [exact H1|]. split; [exact H3|].
  apply H8. discriminate.
Defined.

Lemma no_flow_keeps_history (a : Action) (w : World) :
  starts_no_flow a = true -> history (exec (act a) w) = history w.
Proof.
  destruct a; try discriminate; intros _; cbn [act].
  - reflexivity.
  - unfold exec. destruct (stopAudio_effect w) as [ns [es [E _]]].
    now rewrite E.
  - unfold exec. destruct (handleGoBack_world w) as [ns [es [E _]]].
    now rewrite E.
  - unfold exec, bind, get.
    destruct (nth_error (history w) i) as [item|]; [|reflexivity].
    destruct (Session.handleHistoryClick_world item w) as [ns [es [E _]]].
    now rewrite E.
  - now destruct (host_buffer_end_frame n w) as [_ [_ [_ [H _]]]].
  - now destruct (host_dispatch_ended_frame n w) as [_ [_ [_ [H _]]]].
Qed.

Lemma no_flows_keep_history (acts : list Action) (w : World) :
  forallb starts_no_flow acts = true -> history (run acts w) = history w.
Proof.
  revert w. induction acts as [|a acts IH]; intros w H; [reflexivity|].
  cbn [forallb] in H. apply andb_true_iff in H. destruct H as [Ha H].
  cbn [run fold_left]. change (fold_left _ acts ?v) with (run acts v).
  now rewrite (IH _ H), no_flow_keeps_history.
Qed.

(** X24. Round trip through the history: once the search of a flow has
    succeeded, whatever happens next short of another flow (typing,
    stopping, going back, restoring other entries, the end of the
    playback), a click on the first entry of the history makes the
    response and the query of that flow the active ones again, in state
    Idle and without a remote call. *)
Theorem history_round_trip (env : Env) (q : jsstring) (w : World)
    (r : SearchReply) (acts : list Action) :
  backend_search env q = inr r ->
  forallb starts_no_flow acts = true ->
  let w1 := run acts (exec (performSearchFlow env q) w) in
  let w2 := exec (act (ClickHistory 0)) w1 in
  results w2 = Some (searchAndSummarize_result q r)
  /\ query w2 = q
  /\ status w2 = IDLE
  /\ calls (emitted w1 w2) = []
  /\ history w2 = history w1.
Proof.
  intros Hs Hacts w1 w2.
  assert (Hh : history w1
               = newItem_of env q (searchAndSummarize_result q r)
                 :: firstn 19 (history w)).
  { unfold w1. rewrite (no_flows_keep_history _ _ Hacts).
    rewrite performSearchFlow_history, Hs. reflexivity. }
  assert (E : w2 = exec (handleHistoryClick
                           (newItem_of env q (searchAndSummarize_result q r)))
                     w1).
  { unfold w2, exec. cbn [act]. unfold bind at 1, get. now rewrite Hh. }
  rewrite E. unfold exec.
  destruct (Session.handleHistoryClick_world
              (newItem_of env q (searchAndSummarize_result q r)) w1)
    as [ns [es [E' [Hc _]]]].
  rewrite E'. cbn [snd]. unfold emitted. cbn [trace].
  rewrite skipn_app, skipn_all, Nat.sub_diag. cbn [skipn app].
  repeat split; auto.
Qed.

Lemma history_round_trip_witness :
  let w1 := run [ClickStop; ClickGoBack; TypeQuery (js "rome")]
              (exec (performSearchFlow ok_env (js "paris")) initial) in
  let w2 := exec (act (ClickHistory 0)) w1 in
  results w1 = None
  /\ results w2
     = Some (searchAndSummarize_result (js "paris") sample_reply)
  /\ query w2 = js "paris".
Proof.
  destruct (@history_round_trip ok_env (js "paris") initial sample_reply
              [ClickStop; ClickGoBack; TypeQuery (js "rome")]
              eq_refl eq_refl) as [H1 [H2 _]].
  split; [reflexivity|]. split; [exact H1 | exact H2].
Defined.

End SessionFacts.
